(** * web_ws281x_go: the emulated WS2811 device and the websocket pump

    A shallow embedding of the Go package [ws2811]: the device
    ([MakeWS2811], [Init], [Wait], [Render], [Fini], [Leds], [SetLedsSync])
    and the writer side of the websocket client ([sendMessage] and the
    message branch of [writePump]).  The definitions come first, the
    properties after them.

    Conventions.
    - A Go [int] is a [Z]; where the source does arithmetic on it the 64-bit
      wrap-around is written out ([wrap64]).  A [uint32] LED colour is an
      [N]; the code only copies and prints colours.
    - A slice that may be [nil] is an [option (list _)]; [None] is [nil].
    - A Go [error] is its message; a function returning [error] returns an
      [option error], [None] being [nil].
    - A run-time panic is a value of [panic]; a function that may panic
      returns a [result]. *)

From Stdlib Require Import ZArith NArith Ascii String DecimalString.
From Stdlib Require Import PrimFloat FloatOps SpecFloat Uint63.
From stdpp Require Import base option list gmap strings.

Local Open Scope string_scope.
Local Open Scope Z_scope.

(** ** The Go run time, as far as the package uses it *)

Inductive panic : Type :=
| IndexOutOfRange (index : Z) (length : nat)
| MakesliceLen
| NilDereference.

Inductive result (A : Type) : Type :=
| Done (a : A)
| Panicked (p : panic).
Arguments Done {A} a.
Arguments Panicked {A} p.

Definition rbind {A B} (m : result A) (k : A -> result B) : result B :=
  match m with
  | Done a => k a
  | Panicked p => Panicked p
  end.

Declare Scope go_scope.
Delimit Scope go_scope with go.
Notation "'let!' x ':=' m 'in' k" := (rbind m (fun x => k))
  (at level 10, x pattern, m at level 100, k at level 200) : go_scope.
Local Open Scope go_scope.

Definition error := string.

(** [errors.New] and [errors.WithMessage] of github.com/pkg/errors. *)
Definition errors_New (msg : string) : error := msg.
Definition errors_WithMessage (err : error) (msg : string) : error :=
  msg ++ ": " ++ err.

Abbreviation slice A := (option (list A)) (only parsing).

Definition slen {A} (s : slice A) : nat :=
  match s with
  | None => 0%nat
  | Some l => length l
  end.

Definition elems {A} (s : slice A) : list A :=
  match s with
  | None => []
  | Some l => l
  end.

(** [make([]T, n)]: a negative length panics; memory is unbounded. *)
Definition make_slice {A} (zero : A) (n : Z) : result (slice A) :=
  if n <? 0 then Panicked MakesliceLen
  else Done (Some (replicate (Z.to_nat n) zero)).

(** [l[i]] read and [l[i] = x] write, with Go's bounds check. *)
Definition index {A} (l : list A) (i : Z) : result A :=
  if i <? 0 then Panicked (IndexOutOfRange i (length l))
  else match l !! Z.to_nat i with
       | Some x => Done x
       | None => Panicked (IndexOutOfRange i (length l))
       end.

Definition store {A} (l : list A) (i : Z) (x : A) : result (list A) :=
  if i <? 0 then Panicked (IndexOutOfRange i (length l))
  else if (Z.to_nat i <? length l)%nat then Done (<[Z.to_nat i := x]> l)
       else Panicked (IndexOutOfRange i (length l)).

Definition deref {A} (p : option A) : result A :=
  match p with
  | Some a => Done a
  | None => Panicked NilDereference
  end.

Definition wrap64 (z : Z) : Z :=
  (z + 2 ^ 63) `mod` 2 ^ 64 - 2 ^ 63.

(** ** Constants and configuration records *)

Definition RpiPwmChannels : nat := 2.
Definition TargetFreq : Z := 800000.
Definition DefaultLedCount : Z := 16.
Definition DefaultBrightness : Z := 64.

Record ChannelOption : Type := mkChannelOption {
  LedCount : Z;
  StripeType : Z;
  Brightness : Z;
  WShift : Z;
  RShift : Z;
  GShift : Z;
  BShift : Z;
  Gamma : slice Byte.byte
}.

Record Option : Type := mkOption {
  RenderWaitTime : Z;
  Frequency : Z;
  Channels : list ChannelOption
}.

(** Modelled from the spec: the type [Hub] is declared in a file of the
    package that is not part of this development.  By the spec the hub's
    fan-out entry point takes the frame messages; in [Render] it is the
    channel [hub.broadcast].  The device only holds a pointer to a hub, so a
    hub is a name here, and a send on its channel is an [EvBroadcast] event. *)
Definition hub_id := nat.

(** A [time.Time] is a number of nanoseconds; the zero [Time] is 0. *)
Definition Time := Z.
Definition Duration := Z.

(** The device.  [options] is a pointer to the device's own copy of the
    configuration; [P] is what stands for that pointer: the configuration
    itself ([WS2811], [None] being the nil pointer) or, in [Store], a
    location of the heap. *)
Record WS2811_at (P : Type) : Type := mkWS2811 {
  initialized : bool;
  options : P;
  leds : list (slice N);
  hub : option hub_id;
  lastRender : Time
}.
Arguments mkWS2811 {P} _ _ _ _ _.
Arguments initialized {P} _.
Arguments options {P} _.
Arguments leds {P} _.
Arguments hub {P} _.
Arguments lastRender {P} _.

Abbreviation WS2811 := (WS2811_at (option Option)).

Definition set_initialized {P} (b : bool) (ws : WS2811_at P) : WS2811_at P :=
  mkWS2811 b (options ws) (leds ws) (hub ws) (lastRender ws).
Definition set_leds {P} (l : list (slice N)) (ws : WS2811_at P) : WS2811_at P :=
  mkWS2811 (initialized ws) (options ws) l (hub ws) (lastRender ws).
Definition set_lastRender {P} (t : Time) (ws : WS2811_at P) : WS2811_at P :=
  mkWS2811 (initialized ws) (options ws) (leds ws) (hub ws) t.

(** [WS2812Strip] is declared in a file of the package that is not part of
    this development; [DefaultOptions] takes its value as an argument. *)
Definition DefaultOptions (WS2812Strip : Z) : Option :=
  mkOption 0 TargetFreq
    [mkChannelOption DefaultLedCount WS2812Strip DefaultBrightness 0 0 0 0 None].

(** ** The device *)

(** [MakeWS2811] on configuration values: [deepcopy.Copy] of a value is the
    value, and of a nil pointer nil.  [MakeWS2811_ref] below is the same
    function on a heap, where the caller keeps a pointer to its [Option]. *)
Definition MakeWS2811 (opt : option Option) (h : option hub_id) : WS2811 :=
  mkWS2811 false opt [] h 0.

Definition AlreadyInitialized : error := errors_New "device already initialized".
Definition LengthExceeded : error := errors_New "Error: Too many LEDs".

(** The loop of [Init]: [rest] are the channels from index [i] on. The
    right-hand side [make] is evaluated before the indexed store. *)
Fixpoint Init_loop (rest : list ChannelOption) (i : nat)
    (bufs : list (slice N)) : result (list (slice N)) :=
  match rest with
  | [] => Done bufs
  | c :: rest' =>
      let! buf := make_slice 0%N (LedCount c) in
      let! bufs' := store bufs (Z.of_nat i) buf in
      Init_loop rest' (S i) bufs'
  end.

Definition Init (ws : WS2811) : result (option error * WS2811) :=
  if initialized ws then Done (Some AlreadyInitialized, ws)
  else
    let ws1 := set_leds (replicate RpiPwmChannels None) ws in
    let! o := deref (options ws1) in
    let! bufs := Init_loop (Channels o) 0 (leds ws1) in
    Done (None, set_leds bufs ws1).

Definition Fini (ws : WS2811) : WS2811 := set_initialized false ws.

Definition Leds (ws : WS2811) (channel : Z) : result (slice N) :=
  index (leds ws) channel.

(** ** Clock, sleeping and the broadcast channel

    Everything the device does to its environment is logged, in program
    order, in [events]: reading the clock, sleeping, and sending a message on
    a hub's [broadcast] channel.  The clock is ideal: only [time.Sleep]
    advances it, by the requested duration. *)

Inductive event : Type :=
| EvNow (t : Time)
| EvSleep (d : Duration)
| EvBroadcast (h : hub_id) (msg : string).

Record world : Type := mkWorld {
  clock : Time;
  events : list event
}.

Definition time_Now (w : world) : Time * world :=
  (clock w, mkWorld (clock w) (events w ++ [EvNow (clock w)])).

Definition minDuration : Duration := - 2 ^ 63.
Definition maxDuration : Duration := 2 ^ 63 - 1.

(** [Time.Sub] saturates at the ends of the [Duration] range. *)
Definition Time_Sub (t u : Time) : Duration :=
  Z.max minDuration (Z.min maxDuration (t - u)).

Definition Time_Add (t : Time) (d : Duration) : Time := t + d.

Definition time_Until (t : Time) (w : world) : Duration * world :=
  let '(now, w1) := time_Now w in (Time_Sub t now, w1).

(** [time.Sleep]: a negative or zero duration returns immediately. *)
Definition time_Sleep (d : Duration) (w : world) : world :=
  mkWorld (clock w + Z.max 0 d) (events w ++ [EvSleep d]).

(** [ch <- msg] on the [broadcast] channel of hub [h]. *)
Definition chan_send (h : hub_id) (msg : string) (w : world) : world :=
  mkWorld (clock w) (events w ++ [EvBroadcast h msg]).

(** ** float64, as far as [Wait] uses it *)

(** [float64(z)] for an [int] in the 64-bit range. *)
Definition float64_of_int (z : Z) : float :=
  if z =? - 2 ^ 63 then
    PrimFloat.opp (PrimFloat.mul (PrimFloat.of_uint63 (Uint63.of_Z (2 ^ 62)))
                                 (PrimFloat.of_uint63 (Uint63.of_Z 2)))
  else if z <? 0 then PrimFloat.opp (PrimFloat.of_uint63 (Uint63.of_Z (- z)))
  else PrimFloat.of_uint63 (Uint63.of_Z z).

(** [int64(f)]: truncation toward zero.  For a NaN, an infinity or a value
    outside the range the Go specification leaves the result to the
    implementation; the value here is the one of amd64. *)
Definition int64_of_float (f : float) : Z :=
  match Prim2SF f with
  | S754_zero _ => 0
  | S754_finite s m e =>
      let mag := match e with
                 | Zneg p => Z.shiftr (Zpos m) (Zpos p)
                 | _ => Z.shiftl (Zpos m) e
                 end in
      let v := if s then - mag else mag in
      if (minDuration <=? v) && (v <=? maxDuration) then v else minDuration
  | _ => minDuration
  end.

(** The literal [0.05] as a float64 constant. *)
Definition float_0_05 : float := 0x1.999999999999ap-5%float.

(** [time.Second], in nanoseconds. *)
Definition Second : Duration := 1000000000.

(** [dt] of [Wait], in seconds, and its conversion to a [Duration]. *)
Definition render_dt (ledCount frequency : Z) : float :=
  PrimFloat.div
    (PrimFloat.add (float64_of_int (wrap64 (8 * 3 * ledCount))) float_0_05)
    (float64_of_int frequency).

Definition render_duration (ledCount frequency : Z) : Duration :=
  int64_of_float (PrimFloat.mul (render_dt ledCount frequency)
                                (float64_of_int Second)).

Definition Wait (ws : WS2811) (w : world) : result (option error * world) :=
  let! o := deref (options ws) in
  let! c0 := index (Channels o) 0 in
  let nextRender :=
    Time_Add (lastRender ws) (render_duration (LedCount c0) (Frequency o)) in
  let '(d, w1) := time_Until nextRender w in
  Done (None, time_Sleep d w1).

(** ** encoding/json, for the frame message *)

#[local] Unset Elimination Schemes.
Inductive json : Type :=
| JNull
| JNum (z : Z)
| JStr (s : string)
| JArr (items : list json)
| JObj (fields : list (string * json)).
#[local] Set Elimination Schemes.

Definition quote : string := String "034"%char EmptyString.

Definition itoa (z : Z) : string := NilZero.string_of_int (Z.to_int z).

Fixpoint encode (j : json) : string :=
  match j with
  | JNull => "null"
  | JNum z => itoa z
  | JStr s => quote ++ s ++ quote
  | JArr items =>
      "[" ++ (fix go (l : list json) : string :=
                match l with
                | [] => ""
                | [x] => encode x
                | x :: r => encode x ++ "," ++ go r
                end) items ++ "]"
  | JObj fields =>
      "{" ++ (fix go (l : list (string * json)) : string :=
                match l with
                | [] => ""
                | [(k, x)] => quote ++ k ++ quote ++ ":" ++ encode x
                | (k, x) :: r =>
                    quote ++ k ++ quote ++ ":" ++ encode x ++ "," ++ go r
                end) fields ++ "}"
  end.

Definition base64_alphabet : string :=
  "ABCDEFGHIJKLMNOPQRSTUVWXYZabcdefghijklmnopqrstuvwxyz0123456789+/".

Definition base64_char (n : N) : ascii :=
  match String.get (N.to_nat n) base64_alphabet with
  | Some c => c
  | None => "="%char
  end.

(** Standard base64 with padding, on bytes given as numbers. *)
Fixpoint base64 (bs : list N) : string :=
  match bs with
  | [] => ""
  | [a] =>
      String (base64_char (a / 4))
        (String (base64_char ((a mod 4) * 16)) "==")
  | [a; b] =>
      String (base64_char (a / 4))
        (String (base64_char ((a mod 4) * 16 + b / 16))
           (String (base64_char ((b mod 16) * 4)) "="))
  | a :: b :: c :: rest =>
      String (base64_char (a / 4))
        (String (base64_char ((a mod 4) * 16 + b / 16))
           (String (base64_char ((b mod 16) * 4 + c / 64))
              (String (base64_char (c mod 64)) (base64 rest))))
  end%N.

(** A [[]byte] is encoded as a base64 string, a nil slice as [null]. *)
Definition json_bytes (s : slice Byte.byte) : json :=
  match s with
  | None => JNull
  | Some bs => JStr (base64 (map Byte.to_N bs))
  end.

Definition json_uint32s (s : slice N) : json :=
  match s with
  | None => JNull
  | Some l => JArr (map (fun v => JNum (Z.of_N v)) l)
  end.

Definition json_ChannelOption (c : ChannelOption) : json :=
  JObj [("LedCount", JNum (LedCount c));
        ("StripeType", JNum (StripeType c));
        ("Brightness", JNum (Brightness c));
        ("WShift", JNum (WShift c));
        ("RShift", JNum (RShift c));
        ("GShift", JNum (GShift c));
        ("BShift", JNum (BShift c));
        ("Gamma", json_bytes (Gamma c))].

(** The anonymous struct of [Render]. *)
Record payload : Type := mkPayload {
  payload_Option : ChannelOption;
  payload_Leds : slice N
}.

Definition json_payload (p : payload) : json :=
  JObj [("option", json_ChannelOption (payload_Option p));
        ("leds", json_uint32s (payload_Leds p))].

(** [json.Marshal] of the payload; it cannot fail on this type, so the error
    branch of [Render] after it is dead. *)
Definition json_Marshal (p : payload) : string := encode (json_payload p).

Definition Render (ws : WS2811) (w : world)
  : result (option error * WS2811 * world) :=
  let! (err, w1) := Wait ws w in
  match err with
  | Some e => Done (Some e, ws, w1)
  | None =>
      let! o := deref (options ws) in
      let! c0 := index (Channels o) 0 in
      let! l0 := index (leds ws) 0 in
      let js := json_Marshal (mkPayload c0 l0) in
      let! h := deref (hub ws) in
      let w2 := chan_send h js w1 in
      let '(t, w3) := time_Now w2 in
      Done (None, set_lastRender t ws, w3)
  end.

(** The loop of [SetLedsSync]: [k] iterations are left, [i] is the index. *)
Fixpoint SetLeds_loop (k i : nat) (channel : Z) (vals : list N)
    (bufs : list (slice N)) : result (list (slice N)) :=
  match k with
  | O => Done bufs
  | S k' =>
      let! buf := index bufs channel in
      let! v := index vals (Z.of_nat i) in
      let! buf' := store (elems buf) (Z.of_nat i) v in
      let! bufs' := store bufs channel (Some buf') in
      SetLeds_loop k' (S i) channel vals bufs'
  end.

Definition SetLedsSync (ws : WS2811) (w : world) (channel : Z)
    (vals : list N) : result (option error * WS2811 * world) :=
  let! (err, w1) := Wait ws w in
  match err with
  | Some e => Done (Some (errors_WithMessage e "Error setting LEDs"), ws, w1)
  | None =>
      let l := length vals in
      let! buf := index (leds ws) channel in
      if (slen buf <? l)%nat then Done (Some LengthExceeded, ws, w1)
      else
        let! bufs := SetLeds_loop l 0 channel vals (leds ws) in
        Done (None, set_leds bufs ws, w1)
  end.

(** * The websocket client: [sendMessage] and the message branch of
      [writePump] *)

(** What the transport has been handed: each element of [sent] is one
    websocket message, that is one transmission unit. *)
Inductive frame : Type :=
| TextMessage (data : string)
| CloseMessage
| PingMessage.

(** The connection as the writer sees it.  [writer] is the open message
    writer with the bytes written to it so far.  [faults] schedules the
    outcome of the coming transport operations, first operation first:
    [Some err] makes the operation fail with [err]; past the end of the
    schedule every operation succeeds. *)
Record Conn : Type := mkConn {
  sent : list frame;
  writer : option string;
  faults : list (option error)
}.

(** The client.  [send] is the content of the buffered channel, oldest
    message first, and [closed] tells whether the hub closed it.  The hub
    runs concurrently: [arrivals] lists what it enqueues just before each of
    the pump's coming channel operations ([len] or receive). *)
Record Client : Type := mkClient {
  conn : Conn;
  send : list string;
  closed : bool;
  arrivals : list (list string)
}.

Definition set_conn (k : Conn) (c : Client) : Client :=
  mkClient k (send c) (closed c) (arrivals c).

Definition next_fault (k : Conn) : option error * list (option error) :=
  match faults k with
  | [] => (None, [])
  | f :: fs => (f, fs)
  end.

(** [conn.NextWriter(TextMessage)]: a writer left open is closed first. *)
Definition NextWriter (k : Conn) : option error * Conn :=
  let '(f, fs) := next_fault k in
  match f with
  | Some err => (Some err, mkConn (sent k) (writer k) fs)
  | None =>
      let flushed := match writer k with
                     | Some b => (sent k ++ [TextMessage b])%list
                     | None => sent k
                     end in
      (None, mkConn flushed (Some "") fs)
  end.

(** [w.Write(p)] *)
Definition Write (p : string) (k : Conn) : option error * Conn :=
  let '(f, fs) := next_fault k in
  match f, writer k with
  | Some err, _ => (Some err, mkConn (sent k) (writer k) fs)
  | None, None => (Some "websocket: write closed", mkConn (sent k) None fs)
  | None, Some b => (None, mkConn (sent k) (Some (b ++ p)) fs)
  end.

(** [w.Close()]: the message is complete and goes out as one unit. *)
Definition Close (k : Conn) : option error * Conn :=
  let '(f, fs) := next_fault k in
  match f, writer k with
  | Some err, _ => (Some err, mkConn (sent k) (writer k) fs)
  | None, None => (None, mkConn (sent k) None fs)
  | None, Some b => (None, mkConn (sent k ++ [TextMessage b])%list None fs)
  end.

(** [conn.WriteMessage(CloseMessage, []byte{})] *)
Definition WriteClose (k : Conn) : option error * Conn :=
  let '(f, fs) := next_fault k in
  match f with
  | Some err => (Some err, mkConn (sent k) (writer k) fs)
  | None => (None, mkConn (sent k ++ [CloseMessage])%list (writer k) fs)
  end.

(** The hub's turn before a channel operation of the pump. *)
Definition hub_turn (c : Client) : Client :=
  match arrivals c with
  | [] => c
  | a :: rest => mkClient (conn c) (send c ++ a)%list (closed c) rest
  end.

(** [len(c.send)] *)
Definition chan_len (c : Client) : nat * Client :=
  let c1 := hub_turn c in (length (send c1), c1).

(** [<-c.send]: [None] when the receive would block. *)
Definition chan_recv (c : Client) : option (string * bool) * Client :=
  let c1 := hub_turn c in
  match send c1 with
  | m :: q => (Some (m, true), mkClient (conn c1) q (closed c1) (arrivals c1))
  | [] => if closed c1 then (Some ("", false), c1) else (None, c1)
  end.

Inductive outcome : Type :=
| Returned (err : option error)
| Blocked.

(** The loop of [sendMessage], [n] iterations left. *)
Fixpoint drain (n : nat) (c : Client) : outcome * Client :=
  match n with
  | O => (Returned None, c)
  | S n' =>
      let '(r, c1) := chan_recv c in
      match r with
      | None => (Blocked, c1)
      | Some (m, _) =>
          let '(e, k) := Write m (conn c1) in
          match e with
          | Some err =>
              (Returned (Some (errors_WithMessage err "can't send queued message")),
               set_conn k c1)
          | None => drain n' (set_conn k c1)
          end
      end
  end.

(** [sendMessage].  The source has no [return] after the last [if]; the
    embedding returns [nil] there. *)
Definition sendMessage (message : string) (c : Client) : outcome * Client :=
  let '(e, k1) := NextWriter (conn c) in
  match e with
  | Some err =>
      (Returned (Some (errors_WithMessage err
                         "can't get the writer for the next message")),
       set_conn k1 c)
  | None =>
      let '(e, k2) := Write message k1 in
      match e with
      | Some err =>
          (Returned (Some (errors_WithMessage err "can't send message")),
           set_conn k2 c)
      | None =>
          let '(n, c3) := chan_len (set_conn k2 c) in
          let '(r, c4) := drain n c3 in
          match r with
          | Returned None =>
              let '(e, k5) := Close (conn c4) in
              match e with
              | Some err =>
                  (Returned (Some (errors_WithMessage err "can't close writer")),
                   set_conn k5 c4)
              | None => (Returned None, set_conn k5 c4)
              end
          | _ => (r, c4)
          end
      end
  end.

Inductive pump_next : Type :=
| Continue
| Stop
| Suspended.

(** The branch [case message, ok := <-c.send] of [writePump]; setting the
    write deadline and logging are left out. *)
Definition writePump_message (c : Client) : pump_next * Client :=
  let '(r, c1) := chan_recv c in
  match r with
  | None => (Suspended, c1)
  | Some (message, ok) =>
      if ok then
        let '(r, c2) := sendMessage message c1 in
        match r with
        | Returned None => (Continue, c2)
        | Returned (Some _) => (Stop, c2)
        | Blocked => (Suspended, c2)
        end
      else
        let '(_, k) := WriteClose (conn c1) in (Stop, set_conn k c1)
  end.

(** [conn.WriteMessage(PingMessage, nil)] *)
Definition WritePing (k : Conn) : option error * Conn :=
  let '(f, fs) := next_fault k in
  match f with
  | Some err => (Some err, mkConn (sent k) (writer k) fs)
  | None => (None, mkConn (sent k ++ [PingMessage])%list (writer k) fs)
  end.

(** The branch [case <-ticker.C] of [writePump].  [SetWriteDeadline] of the
    websocket package records the deadline and returns [nil]; it is left
    out, as is the logging. *)
Definition writePump_tick (c : Client) : pump_next * Client :=
  let '(e, k) := WritePing (conn c) in
  match e with
  | Some _ => (Stop, set_conn k c)
  | None => (Continue, set_conn k c)
  end.

(** Which case a [select] of [writePump] takes. *)
Inductive select_case : Type :=
| CaseMessage
| CaseTick.

(** The loop of [writePump], driven by the cases its [select]s take.
    [Continue] means the loop is still running when the list is used up,
    [Suspended] that it waits on an empty channel, [Stop] that [writePump]
    returned (the deferred [ticker.Stop] and [conn.Close] run then; the
    state of the network connection is not part of [Conn]). *)
Fixpoint writePump (cases : list select_case) (c : Client)
  : pump_next * Client :=
  match cases with
  | [] => (Continue, c)
  | CaseMessage :: rest =>
      let '(nx, c1) := writePump_message c in
      match nx with
      | Continue => writePump rest c1
      | _ => (nx, c1)
      end
  | CaseTick :: rest =>
      let '(nx, c1) := writePump_tick c in
      match nx with
      | Continue => writePump rest c1
      | _ => (nx, c1)
      end
  end.

(** The bytes of several messages, one after the other. *)
Definition join (ms : list string) : string := foldr String.append "" ms.

Definition no_fault (k : Conn) : Prop := Forall (fun f => f = None) (faults k).

Local Close Scope string_scope.

(** * Configurations in the heap: [MakeWS2811] and [deepcopy.Copy] *)

(** The caller hands [MakeWS2811] a pointer to an [Option]; the [Channels]
    slice and every [Gamma] slice point to arrays that the caller can still
    write.  Heap cells hold an [Option] struct or a backing array. *)

Definition loc := positive.

(** A slice header: backing array, offset into it and length. *)
Record slice_ref : Type := mkSliceRef {
  base : loc;
  off : nat;
  len : nat
}.

Record ChannelOption_cell : Type := mkChannelOptionCell {
  cell_LedCount : Z;
  cell_StripeType : Z;
  cell_Brightness : Z;
  cell_WShift : Z;
  cell_RShift : Z;
  cell_GShift : Z;
  cell_BShift : Z;
  cell_Gamma : option slice_ref
}.

Record Option_cell : Type := mkOptionCell {
  cell_RenderWaitTime : Z;
  cell_Frequency : Z;
  cell_Channels : option slice_ref
}.

Inductive object : Type :=
| ObjOption (o : Option_cell)
| ObjChannels (cs : list ChannelOption_cell)
| ObjBytes (bs : list Byte.byte).

Abbreviation heap := (gmap loc object).

(** The elements a slice header denotes, when it is within its array. *)
Definition window {A} (s : slice_ref) (arr : list A) : option (list A) :=
  if (off s + len s <=? length arr)%nat
  then Some (take (len s) (drop (off s) arr)) else None.

(** Reading a configuration out of the heap; [None] only on a heap that is
    not well formed (a dangling or ill-typed reference). *)
Definition load_bytes (σ : heap) (s : option slice_ref)
  : option (slice Byte.byte) :=
  match s with
  | None => Some None
  | Some r =>
      match σ !! base r with
      | Some (ObjBytes bs) => Some <$> window r bs
      | _ => None
      end
  end.

Definition load_channel (σ : heap) (c : ChannelOption_cell)
  : option ChannelOption :=
  g ← load_bytes σ (cell_Gamma c);
  Some (mkChannelOption (cell_LedCount c) (cell_StripeType c)
          (cell_Brightness c) (cell_WShift c) (cell_RShift c)
          (cell_GShift c) (cell_BShift c) g).

Definition load_channels (σ : heap) (s : option slice_ref)
  : option (list ChannelOption) :=
  match s with
  | None => Some []
  | Some r =>
      match σ !! base r with
      | Some (ObjChannels cs) =>
          cs' ← window r cs; mapM (load_channel σ) cs'
      | _ => None
      end
  end.

(** The configuration behind an [*Option]; a nil pointer loads as [None]. *)
Definition load_Option (σ : heap) (p : option loc) : option (option Option) :=
  match p with
  | None => Some None
  | Some l =>
      match σ !! l with
      | Some (ObjOption o) =>
          cs ← load_channels σ (cell_Channels o);
          Some (Some (mkOption (cell_RenderWaitTime o) (cell_Frequency o) cs))
      | _ => None
      end
  end.

Definition alloc (σ : heap) (o : object) : loc * heap :=
  let l := fresh (dom σ) in (l, <[l := o]> σ).

(** [deepcopy.Copy]: every slice gets a new backing array, every pointer a
    new target. *)
Definition copy_bytes (σ : heap) (s : option slice_ref)
  : option (option slice_ref * heap) :=
  match s with
  | None => Some (None, σ)
  | Some r =>
      match σ !! base r with
      | Some (ObjBytes bs) =>
          bs' ← window r bs;
          let '(l, σ') := alloc σ (ObjBytes bs') in
          Some (Some (mkSliceRef l 0 (len r)), σ')
      | _ => None
      end
  end.

Definition copy_channel (σ : heap) (c : ChannelOption_cell)
  : option (ChannelOption_cell * heap) :=
  '(g, σ') ← copy_bytes σ (cell_Gamma c);
  Some (mkChannelOptionCell (cell_LedCount c) (cell_StripeType c)
          (cell_Brightness c) (cell_WShift c) (cell_RShift c)
          (cell_GShift c) (cell_BShift c) g, σ').

Fixpoint copy_channel_list (σ : heap) (cs : list ChannelOption_cell)
  : option (list ChannelOption_cell * heap) :=
  match cs with
  | [] => Some ([], σ)
  | c :: rest =>
      '(c', σ1) ← copy_channel σ c;
      '(rest', σ2) ← copy_channel_list σ1 rest;
      Some (c' :: rest', σ2)
  end.

Definition copy_channels (σ : heap) (s : option slice_ref)
  : option (option slice_ref * heap) :=
  match s with
  | None => Some (None, σ)
  | Some r =>
      match σ !! base r with
      | Some (ObjChannels cs) =>
          cs' ← window r cs;
          '(copies, σ1) ← copy_channel_list σ cs';
          let '(l, σ2) := alloc σ1 (ObjChannels copies) in
          Some (Some (mkSliceRef l 0 (len r)), σ2)
      | _ => None
      end
  end.

Definition copy_Option (σ : heap) (p : option loc)
  : option (option loc * heap) :=
  match p with
  | None => Some (None, σ)
  | Some l =>
      match σ !! l with
      | Some (ObjOption o) =>
          '(cs, σ1) ← copy_channels σ (cell_Channels o);
          let '(l', σ2) :=
            alloc σ1 (ObjOption (mkOptionCell (cell_RenderWaitTime o)
                                   (cell_Frequency o) cs)) in
          Some (Some l', σ2)
      | _ => None
      end
  end.

(** A device whose [options] field is a pointer into the heap. *)
Abbreviation WS2811_ref := (WS2811_at (option loc)).

(** [MakeWS2811(opt, hub)] *)
Definition MakeWS2811_ref (σ : heap) (opt : option loc) (h : option hub_id)
  : option (WS2811_ref * heap) :=
  '(p, σ') ← copy_Option σ opt;
  Some (mkWS2811 false p [] h 0, σ').

(** The device a method sees through the pointer, and the device after the
    method, the pointer being kept. *)
Definition attach (cfg : option Option) (r : WS2811_ref) : WS2811 :=
  mkWS2811 (initialized r) cfg (leds r) (hub r) (lastRender r).

Definition commit (ws : WS2811) (r : WS2811_ref) : WS2811_ref :=
  mkWS2811 (initialized ws) (options r) (leds ws) (hub ws) (lastRender ws).

Inductive call : Type :=
| CallInit
| CallRender
| CallWait
| CallFini
| CallLeds (channel : Z)
| CallSetLedsSync (channel : Z) (vals : list N).

Inductive reply : Type :=
| ReplyError (e : option error)
| ReplyLeds (s : slice N)
| ReplyNothing.

Definition perform (c : call) (ws : WS2811) (w : world)
  : result (reply * WS2811 * world) :=
  match c with
  | CallInit => let! (e, ws') := Init ws in Done (ReplyError e, ws', w)
  | CallRender =>
      let! (e, ws', w') := Render ws w in Done (ReplyError e, ws', w')
  | CallWait => let! (e, w') := Wait ws w in Done (ReplyError e, ws, w')
  | CallFini => Done (ReplyNothing, Fini ws, w)
  | CallLeds channel => let! s := Leds ws channel in Done (ReplyLeds s, ws, w)
  | CallSetLedsSync channel vals =>
      let! (e, ws', w') := SetLedsSync ws w channel vals in
      Done (ReplyError e, ws', w')
  end.

(** A run: the caller writes heap cells and calls methods of the device. *)
Inductive step : Type :=
| Mutate (l : loc) (o : object)
| Invoke (c : call).

Inductive observation : Type :=
| Replied (r : reply)
| Crashed (p : panic)
| Unreadable.

Fixpoint run (steps : list step) (σ : heap) (r : WS2811_ref) (w : world)
  : list observation * world :=
  match steps with
  | [] => ([], w)
  | Mutate l o :: rest => run rest (<[l := o]> σ) r w
  | Invoke c :: rest =>
      match load_Option σ (options r) with
      | None => ([Unreadable], w)
      | Some cfg =>
          match perform c (attach cfg r) w with
          | Panicked p => ([Crashed p], w)
          | Done (rep, ws', w') =>
              let '(obs, w'') := run rest σ (commit ws' r) w' in
              (Replied rep :: obs, w'')
          end
      end
  end.




(** [τ] holds, unchanged, every cell that [σ'] has and [σ] lacks. *)
Definition covers (σ σ' τ : heap) : Prop :=
  forall l x, σ' !! l = Some x -> σ !! l = None -> τ !! l = Some x.

(** * Vocabulary of the properties *)

(** ** Consistent device states

    After a successful [Init] the frame buffer has [RpiPwmChannels] slots,
    the slot of every configured channel is a buffer of that channel's LED
    count, and the other slots are nil.  [sized] is that invariant; the
    methods preserve it. *)

Definition sized (ws : WS2811) : Prop :=
  exists o, options ws = Some o /\
    length (leds ws) = RpiPwmChannels /\
    (forall (i : nat) c, Channels o !! i = Some c ->
       exists l, leds ws !! i = Some (Some l) /\
                 Z.of_nat (length l) = LedCount c) /\
    (forall i : nat, (length (Channels o) <= i < RpiPwmChannels)%nat ->
       leds ws !! i = Some None).

(** The devices a program can hold: built by [MakeWS2811], then passed
    through methods that returned. *)
Inductive reachable : WS2811 -> Prop :=
| reach_MakeWS2811 opt h : reachable (MakeWS2811 opt h)
| reach_Init ws r ws' :
    reachable ws -> Init ws = Done (r, ws') -> reachable ws'
| reach_Fini ws : reachable ws -> reachable (Fini ws)
| reach_Render ws w r ws' w' :
    reachable ws -> Render ws w = Done (r, ws', w') -> reachable ws'
| reach_SetLedsSync ws w channel vals r ws' w' :
    reachable ws -> SetLedsSync ws w channel vals = Done (r, ws', w') ->
    reachable ws'.

(** The buffers [Init] allocates for the channels [cs]. *)
Definition fresh_buffers (cs : list ChannelOption) : list (slice N) :=
  map (fun c => Some (replicate (Z.to_nat (LedCount c)) 0%N)) cs.

(** The world [Wait] leaves: one clock read, one sleep. *)
Definition waited (ws : WS2811) (o : Option) (c0 : ChannelOption)
    (w : world) : world :=
  let nextRender :=
    Time_Add (lastRender ws) (render_duration (LedCount c0) (Frequency o)) in
  time_Sleep (Time_Sub nextRender (clock w))
             (mkWorld (clock w) (events w ++ [EvNow (clock w)])).

(** Whether an event is a send on a [broadcast] channel. *)
Definition is_broadcast (e : event) : bool :=
  match e with
  | EvBroadcast _ _ => true
  | _ => false
  end.


(** The payload bytes of the text messages among [fs], in order. *)
Definition text_bytes (fs : list frame) : string :=
  join (omap (fun f => match f with
                       | TextMessage d => Some d
                       | _ => None
                       end) fs).

(** The byte stream of a client: what the transport has been handed as text,
    then what is queued, then what the hub is still to enqueue. *)
Definition stream (c : Client) : string :=
  String.append (text_bytes (sent (conn c)))
                (join (send c ++ concat (arrivals c))).

(** * Example data *)

Definition demo_channel (n : Z) : ChannelOption :=
  mkChannelOption n 0 DefaultBrightness 0 0 0 0 None.

Definition demo_options : Option :=
  mkOption 0 TargetFreq [demo_channel 3].

Definition demo_ws : WS2811 :=
  mkWS2811 false (Some demo_options) [Some [0%N; 0%N; 0%N]; None] (Some 0%nat) 0.

Definition painted_ws : WS2811 :=
  mkWS2811 false (Some demo_options) [Some [7%N; 8%N; 9%N]; None] (Some 0%nat) 0.



Definition demo_world : world := mkWorld 1000000000000 [].

Definition example_client : Client :=
  mkClient (mkConn [] None []) ["a"; "b"; "c"; "d"]%string false [].

Definition busy_client : Client :=
  mkClient (mkConn [] None []) ["a"; "b"]%string false
           [["c"]; []; ["d"; "e"]]%string.

Definition failing_client : Client :=
  mkClient (mkConn [] None [None; None; Some "broken pipe"%string])
           ["b"; "c"]%string false [].

Definition closed_client : Client :=
  mkClient (mkConn [TextMessage "x"] None []) [] true [].

Definition caller_heap : heap :=
  <[1%positive := ObjOption (mkOptionCell 0 800000 (Some (mkSliceRef 2%positive 0 1)))]>
  (<[2%positive := ObjChannels [mkChannelOptionCell 3 0 64 0 0 0 0
                                  (Some (mkSliceRef 3%positive 1 2))]]>
   (<[3%positive := ObjBytes [Byte.x00; Byte.x01; Byte.x02; Byte.x03]]> ∅)).

(** * Properties *)

(** ** Bounds-checked access *)

Lemma index_lookup {A} (l : list A) (i : nat) (x : A) :
  l !! i = Some x -> index l (Z.of_nat i) = Done x.
Proof.
  intros H. unfold index.
  destruct (Z.ltb_spec (Z.of_nat i) 0) as [Hlt|_]; [lia|].
  now rewrite Nat2Z.id, H.
Qed.

Lemma index_first {A} (l : list A) (x : A) :
  l !! 0%nat = Some x -> index l 0 = Done x.
Proof. intros H. exact (index_lookup l 0 x H). Qed.

Lemma index_out_of_range {A} (l : list A) (i : Z) :
  i < 0 \/ Z.of_nat (length l) <= i ->
  index l i = Panicked (IndexOutOfRange i (length l)).
Proof.
  intros H. unfold index.
  destruct (Z.ltb_spec i 0) as [Hlt|Hge]; [reflexivity|].
  rewrite lookup_ge_None_2; [reflexivity|lia].
Qed.

Lemma store_in_range {A} (l : list A) (i : nat) (x : A) :
  (i < length l)%nat -> store l (Z.of_nat i) x = Done (<[i := x]> l).
Proof.
  intros H. unfold store.
  destruct (Z.ltb_spec (Z.of_nat i) 0) as [Hlt|_]; [lia|].
  rewrite Nat2Z.id.
  destruct (Nat.ltb_spec i (length l)) as [_|Hge]; [reflexivity|lia].
Qed.

Lemma store_out_of_range {A} (l : list A) (i : nat) (x : A) :
  (length l <= i)%nat ->
  store l (Z.of_nat i) x = Panicked (IndexOutOfRange (Z.of_nat i) (length l)).
Proof.
  intros H. unfold store.
  destruct (Z.ltb_spec (Z.of_nat i) 0) as [Hlt|_]; [lia|].
  rewrite Nat2Z.id.
  destruct (Nat.ltb_spec i (length l)) as [Hlt|_]; [lia|reflexivity].
Qed.

Lemma make_slice_nonneg {A} (zero : A) (n : Z) :
  0 <= n -> make_slice zero n = Done (Some (replicate (Z.to_nat n) zero)).
Proof.
  intros H. unfold make_slice.
  destruct (Z.ltb_spec n 0) as [Hlt|_]; [lia|reflexivity].
Qed.

Lemma make_slice_negative {A} (zero : A) (n : Z) :
  n < 0 -> make_slice zero n = Panicked MakesliceLen.
Proof.
  intros H. unfold make_slice.
  destruct (Z.ltb_spec n 0) as [_|Hge]; [reflexivity|lia].
Qed.

(** ** The allocation loop of [Init] *)

Lemma Init_loop_fits (rest : list ChannelOption) :
  forall (i : nat) (bufs : list (slice N)),
    Forall (fun c => 0 <= LedCount c) rest ->
    (i + length rest <= length bufs)%nat ->
    Init_loop rest i bufs =
      Done (take i bufs ++ fresh_buffers rest ++ drop (i + length rest) bufs).
Proof.
  induction rest as [|c rest IH]; intros i bufs Hpos Hlen; simpl in *.
  - rewrite Nat.add_0_r, take_drop. reflexivity.
  - inversion Hpos as [|? ? Hc Hrest]; subst.
    rewrite make_slice_nonneg by assumption. simpl.
    rewrite store_in_range by lia. simpl.
    rewrite IH; [|assumption|rewrite length_insert; lia].
    f_equal.
    rewrite (take_S_r _ i (Some (replicate (Z.to_nat (LedCount c)) 0%N)))
      by (apply list_lookup_insert_eq; lia).
    rewrite take_insert_ge by lia.
    rewrite drop_insert_lt by lia.
    replace (S i + length rest)%nat with (i + S (length rest))%nat by lia.
    rewrite <- app_assoc. reflexivity.
Qed.

Lemma Init_loop_length (rest : list ChannelOption) :
  forall (i : nat) (bufs bufs' : list (slice N)),
    Init_loop rest i bufs = Done bufs' -> length bufs' = length bufs.
Proof.
  induction rest as [|c rest IH]; intros i bufs bufs' H; simpl in H.
  - congruence.
  - destruct (make_slice 0%N (LedCount c)) as [buf|]; simpl in H; [|discriminate].
    unfold store in H.
    destruct (Z.of_nat i <? 0); simpl in H; [discriminate|].
    destruct (Z.to_nat (Z.of_nat i) <? length bufs)%nat; simpl in H;
      [|discriminate].
    apply IH in H. now rewrite length_insert in H.
Qed.



(** A loop that returns had a slot for every channel and no negative count. *)
Lemma Init_loop_Done_inv (rest : list ChannelOption) :
  forall (i : nat) (bufs bufs' : list (slice N)),
    (i <= length bufs)%nat ->
    Init_loop rest i bufs = Done bufs' ->
    Forall (fun c => 0 <= LedCount c) rest /\
    (i + length rest <= length bufs)%nat.
Proof.
  induction rest as [|c rest IH]; intros i bufs bufs' Hi H; simpl in *.
  - split; [constructor|lia].
  - destruct (Z.ltb_spec (LedCount c) 0) as [Hneg|Hpos].
    + rewrite make_slice_negative in H by assumption. discriminate.
    + rewrite make_slice_nonneg in H by assumption. simpl in H.
      destruct (Nat.eq_dec i (length bufs)) as [->|Hne].
      * rewrite store_out_of_range in H by lia. discriminate.
      * rewrite store_in_range in H by lia. simpl in H.
        apply IH in H; [|rewrite length_insert; lia].
        rewrite length_insert in H. destruct H as [HF Hl].
        split; [constructor; assumption|lia].
Qed.

Lemma fresh_buffers_lookup (cs : list ChannelOption) (i : nat) c :
  cs !! i = Some c ->
  fresh_buffers cs !! i = Some (Some (replicate (Z.to_nat (LedCount c)) 0%N)).
Proof. intros H. unfold fresh_buffers. now rewrite list_lookup_fmap, H. Qed.

(** ** [Init] *)

Lemma Init_unfold (ws : WS2811) (o : Option) :
  initialized ws = false ->
  options ws = Some o ->
  Init ws =
    (let! bufs := Init_loop (Channels o) 0 (replicate RpiPwmChannels None) in
     Done (None, set_leds bufs ws)).
Proof.
  intros Hi Ho. unfold Init. rewrite Hi.
  cbn [set_leds options leds]. rewrite Ho. reflexivity.
Qed.

Lemma Init_nil_options (ws : WS2811) :
  initialized ws = false ->
  options ws = None ->
  Init ws = Panicked NilDereference.
Proof.
  intros Hi Ho. unfold Init. rewrite Hi.
  cbn [set_leds options leds]. rewrite Ho. reflexivity.
Qed.

(** What a first [Init] returns when every channel has a slot. *)
Lemma Init_fits (ws : WS2811) (o : Option) :
  initialized ws = false ->
  options ws = Some o ->
  (length (Channels o) <= RpiPwmChannels)%nat ->
  Forall (fun c => 0 <= LedCount c) (Channels o) ->
  Init ws =
    Done (None,
          set_leds (fresh_buffers (Channels o) ++
                    replicate (RpiPwmChannels - length (Channels o)) None) ws).
Proof.
  intros Hi Ho Hlen Hpos. rewrite (Init_unfold ws o Hi Ho).
  rewrite Init_loop_fits;
    [|assumption|rewrite length_replicate; exact Hlen].
  cbn [rbind take Nat.add app]. rewrite drop_replicate. reflexivity.
Qed.

Lemma Init_Done_inv (ws ws' : WS2811) (r : option error) :
  initialized ws = false ->
  Init ws = Done (r, ws') ->
  exists o, options ws = Some o /\
    (length (Channels o) <= RpiPwmChannels)%nat /\
    Forall (fun c => 0 <= LedCount c) (Channels o).
Proof.
  intros Hi H.
  destruct (options ws) as [o|] eqn:Ho;
    [|rewrite (Init_nil_options ws Hi Ho) in H; discriminate].
  rewrite (Init_unfold ws o Hi Ho) in H.
  destruct (Init_loop (Channels o) 0 (replicate RpiPwmChannels None))
    as [bufs|] eqn:Hloop; [|discriminate].
  apply Init_loop_Done_inv in Hloop; [|lia].
  exists o. destruct Hloop as [HF Hl]. rewrite length_replicate in Hl. auto.
Qed.

(** [Init] never touches the [initialized] flag. *)
Lemma Init_keeps_initialized (ws ws' : WS2811) (r : option error) :
  Init ws = Done (r, ws') -> initialized ws' = initialized ws.
Proof.
  destruct (initialized ws) eqn:Hi.
  - unfold Init. rewrite Hi. intros H. injection H as _ <-. exact Hi.
  - destruct (options ws) as [o|] eqn:Ho;
      [|rewrite (Init_nil_options ws Hi Ho); discriminate].
    rewrite (Init_unfold ws o Hi Ho).
    destruct (Init_loop _ _ _) as [bufs|]; [|discriminate].
    intros H. injection H as _ <-. exact Hi.
Qed.

Lemma Init_sized (ws ws' : WS2811) (r : option error) :
  initialized ws = false ->
  Init ws = Done (r, ws') -> sized ws'.
Proof.
  intros Hi H.
  destruct (Init_Done_inv _ _ _ Hi H) as (o & Ho & Hlen & Hpos).
  rewrite (Init_fits ws o Hi Ho Hlen Hpos) in H. injection H as _ <-.
  assert (Hfl : length (fresh_buffers (Channels o)) = length (Channels o))
    by (unfold fresh_buffers; apply length_map).
  exists o. simpl. split; [exact Ho|]. split; [|split].
  - rewrite length_app, length_replicate. lia.
  - intros i c Hc. exists (replicate (Z.to_nat (LedCount c)) 0%N). split.
    + rewrite lookup_app_l.
      * now apply fresh_buffers_lookup.
      * unfold fresh_buffers. rewrite length_map.
        now apply lookup_lt_Some in Hc.
    + rewrite length_replicate.
      rewrite Forall_lookup in Hpos. specialize (Hpos i c Hc). simpl in Hpos. lia.
  - intros i Hi'. rewrite lookup_app_r by lia.
    apply lookup_replicate_2. lia.
Qed.

(** What a second [Init] does after a first one that returned. *)
Lemma Init_again (ws ws1 : WS2811) (r : option error) :
  initialized ws = false ->
  Init ws = Done (r, ws1) ->
  r = None /\ Init ws1 = Done (None, ws1).
Proof.
  intros Hi H.
  destruct (Init_Done_inv _ _ _ Hi H) as (o & Ho & Hlen & Hpos).
  rewrite (Init_fits ws o Hi Ho Hlen Hpos) in H.
  injection H as <- <-. split; [reflexivity|].
  rewrite (Init_fits _ o); try assumption; reflexivity.
Qed.




(** ** [Wait] *)

Lemma Wait_returns (ws : WS2811) (w : world) (o : Option) (c0 : ChannelOption) :
  options ws = Some o ->
  Channels o !! 0%nat = Some c0 ->
  Wait ws w = Done (None, waited ws o c0 w).
Proof.
  intros Ho Hc. unfold Wait. rewrite Ho. cbn [deref rbind].
  rewrite (index_first (Channels o) c0 Hc). reflexivity.
Qed.

Lemma Wait_no_channel (ws : WS2811) (w : world) (o : Option) :
  options ws = Some o ->
  Channels o = [] ->
  Wait ws w = Panicked (IndexOutOfRange 0 0).
Proof.
  intros Ho Hc. unfold Wait. rewrite Ho. cbn [deref rbind].
  rewrite Hc. reflexivity.
Qed.

Lemma Wait_Done_inv (ws : WS2811) (w w' : world) (r : option error) :
  Wait ws w = Done (r, w') ->
  exists o c0, options ws = Some o /\ Channels o !! 0%nat = Some c0 /\
    r = None /\ w' = waited ws o c0 w.
Proof.
  intros H. destruct (options ws) as [o|] eqn:Ho.
  - destruct (Channels o !! 0%nat) as [c0|] eqn:Hc.
    + rewrite (Wait_returns ws w o c0 Ho Hc) in H. injection H as <- <-.
      eauto 6.
    + apply lookup_ge_None in Hc.
      destruct (Channels o) as [|c cs] eqn:Hcs; [|simpl in Hc; lia].
      rewrite (Wait_no_channel ws w o Ho Hcs) in H. discriminate.
  - unfold Wait in H. rewrite Ho in H. discriminate.
Qed.

(** [Wait] sleeps for the time left until [lastRender] plus the render
    duration; with nothing left the clock does not move. *)
Lemma Wait_sleeps (ws : WS2811) (w : world) (o : Option) (c0 : ChannelOption) :
  let remaining :=
    Time_Sub (lastRender ws + render_duration (LedCount c0) (Frequency o))
             (clock w) in
  clock (waited ws o c0 w) = clock w + Z.max 0 remaining /\
  events (waited ws o c0 w) = events w ++ [EvNow (clock w); EvSleep remaining].
Proof.
  unfold waited, time_Sleep, Time_Add. cbn [clock events].
  rewrite <- app_assoc. split; reflexivity.
Qed.

(** 16 LEDs at 800 kHz: (8*3*16 + 0.05) / 800000 s, in whole nanoseconds. *)
Lemma render_duration_default :
  render_duration DefaultLedCount TargetFreq = 480062.
Proof. vm_compute. reflexivity. Qed.

(** ** [SetLedsSync] *)

Lemma SetLeds_loop_copies (k : nat) :
  forall (i ch : nat) (vals : list N) (bufs : list (slice N)) (l : list N),
    bufs !! ch = Some (Some l) ->
    (i + k <= length vals)%nat ->
    (i + k <= length l)%nat ->
    SetLeds_loop k i (Z.of_nat ch) vals bufs =
      Done (<[ch := Some (take i l ++ take k (drop i vals) ++ drop (i + k) l)]>
              bufs).
Proof.
  induction k as [|k IH]; intros i ch vals bufs l Hb Hv Hl; cbn [SetLeds_loop].
  - rewrite Nat.add_0_r, take_0. cbn [app]. rewrite take_drop.
    now rewrite list_insert_id.
  - destruct (lookup_lt_is_Some_2 vals i) as [v Hvi]; [lia|].
    rewrite (index_lookup bufs ch _ Hb). cbn [rbind].
    rewrite (index_lookup vals i v Hvi). cbn [rbind elems].
    rewrite store_in_range by lia. cbn [rbind].
    rewrite store_in_range by (apply lookup_lt_Some in Hb; exact Hb).
    cbn [rbind].
    rewrite (IH (S i) ch vals _ (<[i := v]> l));
      [|apply list_lookup_insert_eq; now apply lookup_lt_Some in Hb
       |lia|rewrite length_insert; lia].
    rewrite list_insert_insert_eq. do 3 f_equal.
    rewrite (take_S_r _ i v) by (apply list_lookup_insert_eq; lia).
    rewrite take_insert_ge by lia.
    rewrite drop_insert_lt by lia.
    rewrite <- app_assoc. f_equal. cbn [app].
    rewrite (drop_S vals v i Hvi). rewrite firstn_cons.
    replace (S i + k)%nat with (i + S k)%nat by lia. reflexivity.
Qed.

(** A write that fits: the first [length vals] slots take [vals], the rest
    of the buffer and the other slots stay. *)
Lemma SetLedsSync_fits (ws : WS2811) (w : world) (o : Option)
    (c0 : ChannelOption) (ch : nat) (l vals : list N) :
  options ws = Some o ->
  Channels o !! 0%nat = Some c0 ->
  leds ws !! ch = Some (Some l) ->
  (length vals <= length l)%nat ->
  SetLedsSync ws w (Z.of_nat ch) vals =
    Done (None,
          set_leds (<[ch := Some (vals ++ drop (length vals) l)]> (leds ws)) ws,
          waited ws o c0 w).
Proof.
  intros Ho Hc Hb Hlen. unfold SetLedsSync.
  rewrite (Wait_returns ws w o c0 Ho Hc). cbn [rbind].
  rewrite (index_lookup _ ch _ Hb). cbn [rbind slen].
  destruct (Nat.ltb_spec (length l) (length vals)) as [Hlt|_]; [lia|].
  rewrite (SetLeds_loop_copies (length vals) 0 ch vals (leds ws) l Hb);
    [|lia|lia].
  cbn [rbind Nat.add]. rewrite take_0, drop_0, firstn_all. reflexivity.
Qed.

(** A write that does not fit: the error, and the device as it was. *)
Lemma SetLedsSync_rejects (ws : WS2811) (w : world) (o : Option)
    (c0 : ChannelOption) (ch : nat) (buf : slice N) (vals : list N) :
  options ws = Some o ->
  Channels o !! 0%nat = Some c0 ->
  leds ws !! ch = Some buf ->
  (slen buf < length vals)%nat ->
  SetLedsSync ws w (Z.of_nat ch) vals =
    Done (Some LengthExceeded, ws, waited ws o c0 w).
Proof.
  intros Ho Hc Hb Hlen. unfold SetLedsSync.
  rewrite (Wait_returns ws w o c0 Ho Hc). cbn [rbind].
  rewrite (index_lookup _ ch _ Hb). cbn [rbind].
  destruct (Nat.ltb_spec (slen buf) (length vals)) as [_|Hge]; [|lia].
  reflexivity.
Qed.

Lemma set_leds_same (ws : WS2811) : set_leds (leds ws) ws = ws.
Proof. now destruct ws. Qed.

Lemma sized_first_channel (ws : WS2811) (o : Option) (ch : nat) c :
  options ws = Some o -> Channels o !! ch = Some c ->
  exists c0, Channels o !! 0%nat = Some c0.
Proof.
  intros _ Hc. apply lookup_lt_Some in Hc.
  destruct (Channels o) as [|c0 cs]; [simpl in Hc; lia|]. now exists c0.
Qed.

Lemma sized_set_slot (ws : WS2811) (ch : nat) (l l' : list N) :
  sized ws ->
  leds ws !! ch = Some (Some l) ->
  length l' = length l ->
  sized (set_leds (<[ch := Some l']> (leds ws)) ws).
Proof.
  intros (o & Ho & Hlen & Hcfg & Hnil) Hb Hl.
  exists o. cbn [set_leds options leds]. split; [exact Ho|].
  split; [now rewrite length_insert|]. split.
  - intros i c Hc. destruct (Hcfg i c Hc) as (li & Hli & Hsz).
    destruct (decide (ch = i)) as [->|Hne].
    + exists l'. rewrite list_lookup_insert_eq by (now apply lookup_lt_Some in Hb).
      split; [reflexivity|]. rewrite Hli in Hb. injection Hb as ->. lia.
    + exists li. now rewrite list_lookup_insert_ne.
  - intros i Hi. specialize (Hnil i Hi).
    destruct (decide (ch = i)) as [->|Hne]; [congruence|].
    now rewrite list_lookup_insert_ne.
Qed.

(** C3: on a consistent device, a write to a configured channel with more
    values than the channel's LED count returns the "Too many LEDs" error,
    and the device returned with it, frame buffer included, is the device as
    it was before the call. *)
Theorem SetLedsSync_length_exceeded (ws : WS2811) (w : world) (o : Option)
    (ch : nat) (c : ChannelOption) (vals : list N) :
  sized ws ->
  options ws = Some o ->
  Channels o !! ch = Some c ->
  LedCount c < Z.of_nat (length vals) ->
  exists w', SetLedsSync ws w (Z.of_nat ch) vals =
               Done (Some LengthExceeded, ws, w').
Proof.
  intros (o' & Ho' & _ & Hcfg & _) Ho Hc Hlen.
  rewrite Ho in Ho'. injection Ho' as <-.
  destruct (Hcfg ch c Hc) as (l & Hl & Hsz).
  destruct (sized_first_channel ws o ch c Ho Hc) as [c0 Hc0].
  exists (waited ws o c0 w).
  apply (SetLedsSync_rejects ws w o c0 ch (Some l) vals Ho Hc0 Hl).
  cbn [slen]. lia.
Qed.

Lemma demo_ws_sized : sized demo_ws.
Proof. apply (Init_sized (MakeWS2811 (Some demo_options) (Some 0%nat)) demo_ws None);
  reflexivity. Qed.

Lemma SetLedsSync_length_exceeded_witness :
  exists w', SetLedsSync demo_ws demo_world 0 [1; 2; 3; 4]%N =
               Done (Some LengthExceeded, demo_ws, w').
Proof.
  apply (SetLedsSync_length_exceeded demo_ws demo_world demo_options 0
           (demo_channel 3) [1; 2; 3; 4]%N);
    [exact demo_ws_sized|reflexivity|reflexivity|vm_compute; reflexivity].
Defined.

(** C4: on a consistent device, a write to a configured channel with at most
    as many values as the channel's LED count returns [nil]; afterwards
    [Leds] of that channel is the written values followed by the old buffer
    from index [length vals] on, the other slots are untouched and the device
    stays consistent. *)
Theorem SetLedsSync_overwrites_prefix (ws : WS2811) (w : world) (o : Option)
    (ch : nat) (c : ChannelOption) (vals : list N) :
  sized ws ->
  options ws = Some o ->
  Channels o !! ch = Some c ->
  Z.of_nat (length vals) <= LedCount c ->
  exists old ws' w',
    Leds ws (Z.of_nat ch) = Done (Some old) /\
    SetLedsSync ws w (Z.of_nat ch) vals = Done (None, ws', w') /\
    Leds ws' (Z.of_nat ch) = Done (Some (vals ++ drop (length vals) old)) /\
    length (vals ++ drop (length vals) old) = length old /\
    (forall j : nat, j <> ch -> leds ws' !! j = leds ws !! j) /\
    sized ws'.
Proof.
  intros Hs Ho Hc Hlen. pose proof Hs as (o' & Ho' & _ & Hcfg & _).
  rewrite Ho in Ho'. injection Ho' as <-.
  destruct (Hcfg ch c Hc) as (l & Hl & Hsz).
  destruct (sized_first_channel ws o ch c Ho Hc) as [c0 Hc0].
  assert (Hfit : (length vals <= length l)%nat) by lia.
  assert (Hsame : length (vals ++ drop (length vals) l) = length l)
    by (rewrite length_app, length_drop; lia).
  exists l, (set_leds (<[ch := Some (vals ++ drop (length vals) l)]> (leds ws)) ws),
    (waited ws o c0 w).
  split; [exact (index_lookup _ ch _ Hl)|].
  split; [exact (SetLedsSync_fits ws w o c0 ch l vals Ho Hc0 Hl Hfit)|].
  split.
  { unfold Leds. cbn [set_leds leds]. apply index_lookup.
    apply list_lookup_insert_eq. now apply lookup_lt_Some in Hl. }
  split; [exact Hsame|]. split.
  - intros j Hj. cbn [set_leds leds]. now rewrite list_lookup_insert_ne.
  - now apply (sized_set_slot ws ch l).
Qed.

Lemma SetLedsSync_overwrites_prefix_witness :
  exists old ws' w',
    Leds demo_ws 0 = Done (Some old) /\
    SetLedsSync demo_ws demo_world 0 [7; 8]%N = Done (None, ws', w') /\
    Leds ws' 0 = Done (Some ([7; 8]%N ++ drop 2 old)) /\
    length ([7; 8]%N ++ drop 2 old) = length old /\
    (forall j : nat, j <> 0%nat -> leds ws' !! j = leds demo_ws !! j) /\
    sized ws'.
Proof.
  apply (SetLedsSync_overwrites_prefix demo_ws demo_world demo_options 0
           (demo_channel 3) [7; 8]%N);
    [exact demo_ws_sized|reflexivity|reflexivity|vm_compute; discriminate].
Defined.

(** C2 (as amended): the code has no channel-index check.  On a consistent
    device with at least one configured channel, an index below 0 or from
    [RpiPwmChannels] on makes both [Leds] and [SetLedsSync] panic with Go's
    index-out-of-range error; an index that is not configured but below
    [RpiPwmChannels] is accepted: [Leds] returns the nil slice, and
    [SetLedsSync] treats it as a channel of capacity 0. *)
Theorem channel_index_unchecked (ws : WS2811) (o : Option) (c0 : ChannelOption) :
  sized ws ->
  options ws = Some o ->
  Channels o !! 0%nat = Some c0 ->
  (forall channel : Z,
     channel < 0 \/ Z.of_nat RpiPwmChannels <= channel ->
     Leds ws channel = Panicked (IndexOutOfRange channel RpiPwmChannels) /\
     forall w vals,
       SetLedsSync ws w channel vals =
         Panicked (IndexOutOfRange channel RpiPwmChannels)) /\
  (forall ch : nat,
     (length (Channels o) <= ch < RpiPwmChannels)%nat ->
     Leds ws (Z.of_nat ch) = Done None /\
     forall w vals,
       SetLedsSync ws w (Z.of_nat ch) vals =
         Done (match vals with [] => None | _ => Some LengthExceeded end,
               ws, waited ws o c0 w)).
Proof.
  intros (o' & Ho' & Hlen & _ & Hnil) Ho Hc0.
  rewrite Ho in Ho'. injection Ho' as <-. split.
  - intros channel Hout.
    assert (Hidx : index (leds ws) channel =
                   Panicked (IndexOutOfRange channel RpiPwmChannels)).
    { rewrite <- Hlen. apply index_out_of_range. rewrite Hlen. exact Hout. }
    split; [exact Hidx|]. intros w vals. unfold SetLedsSync.
    rewrite (Wait_returns ws w o c0 Ho Hc0). cbn [rbind].
    rewrite Hidx. reflexivity.
  - intros ch Hch. specialize (Hnil ch Hch). split.
    + exact (index_lookup _ ch _ Hnil).
    + intros w vals. destruct vals as [|v vals].
      * unfold SetLedsSync.
        rewrite (Wait_returns ws w o c0 Ho Hc0). cbn [rbind].
        rewrite (index_lookup _ ch _ Hnil). cbn [rbind slen length Nat.ltb Nat.leb].
        cbn [SetLeds_loop rbind]. now rewrite set_leds_same.
      * apply (SetLedsSync_rejects ws w o c0 ch None); try assumption.
        cbn [slen length]. lia.
Qed.

Lemma channel_index_unchecked_witness :
  (Leds demo_ws 5 = Panicked (IndexOutOfRange 5 RpiPwmChannels) /\
   forall w vals, SetLedsSync demo_ws w 5 vals =
                    Panicked (IndexOutOfRange 5 RpiPwmChannels)) /\
  Leds demo_ws 1 = Done None.
Proof.
  destruct (channel_index_unchecked demo_ws demo_options (demo_channel 3)
              demo_ws_sized eq_refl eq_refl) as [Hout Hin].
  split.
  - apply Hout. right. vm_compute. discriminate.
  - apply (Hin 1%nat). vm_compute. lia.
Defined.

(** At channel index 5 of a one-channel device neither call returns an
    error: both panic. *)
Lemma channel_5_panics_without_error :
  sized demo_ws /\
  Leds demo_ws 5 = Panicked (IndexOutOfRange 5 2) /\
  SetLedsSync demo_ws demo_world 5 [] = Panicked (IndexOutOfRange 5 2) /\
  ~ (exists e ws' w',
       SetLedsSync demo_ws demo_world 5 [] = Done (Some e, ws', w')).
Proof.
  split; [exact demo_ws_sized|]. split; [reflexivity|].
  split; [reflexivity|]. intros (e & ws' & w' & H). discriminate H.
Qed.

(** ** [Render] *)

(** [Render] returns as soon as there is a channel 0, a slot 0 and a hub. *)
Lemma Render_returns (ws : WS2811) (w : world) (o : Option)
    (c0 : ChannelOption) (buf : slice N) (h : hub_id) :
  options ws = Some o ->
  Channels o !! 0%nat = Some c0 ->
  leds ws !! 0%nat = Some buf ->
  hub ws = Some h ->
  let w1 := waited ws o c0 w in
  Render ws w =
    Done (None, set_lastRender (clock w1) ws,
          mkWorld (clock w1)
            (events w1 ++ [EvBroadcast h (json_Marshal (mkPayload c0 buf));
                           EvNow (clock w1)])).
Proof.
  intros Ho Hc Hb Hh w1. unfold Render.
  rewrite (Wait_returns ws w o c0 Ho Hc). cbn [rbind].
  rewrite Ho. cbn [deref rbind].
  rewrite (index_first _ _ Hc). cbn [rbind].
  rewrite (index_first _ _ Hb). cbn [rbind].
  rewrite Hh. cbn [deref rbind].
  unfold time_Now, chan_send. cbn [clock events].
  rewrite <- app_assoc. reflexivity.
Qed.

Lemma Render_Done_inv (ws ws' : WS2811) (w w' : world) (r : option error) :
  Render ws w = Done (r, ws', w') ->
  exists o c0 buf h,
    options ws = Some o /\ Channels o !! 0%nat = Some c0 /\
    leds ws !! 0%nat = Some buf /\ hub ws = Some h.
Proof.
  intros H. unfold Render in H.
  destruct (Wait ws w) as [[e w1]|] eqn:HW; [|discriminate].
  destruct (Wait_Done_inv _ _ _ _ HW) as (o & c0 & Ho & Hc & -> & ->).
  cbn [rbind] in H. rewrite Ho in H. cbn [deref rbind] in H.
  rewrite (index_first _ _ Hc) in H. cbn [rbind] in H.
  destruct (leds ws !! 0%nat) as [buf|] eqn:Hb.
  - destruct (hub ws) as [h|] eqn:Hh; [eauto 8|].
    rewrite (index_first _ _ Hb) in H. discriminate.
  - rewrite index_out_of_range in H; [discriminate|].
    apply lookup_ge_None in Hb. lia.
Qed.

(** The methods keep a consistent device consistent. *)
Lemma Render_sized (ws ws' : WS2811) (w w' : world) (r : option error) :
  sized ws -> Render ws w = Done (r, ws', w') -> sized ws'.
Proof.
  intros Hs H.
  destruct (Render_Done_inv _ _ _ _ _ H) as (o & c0 & buf & h & Ho & Hc & Hb & Hh).
  rewrite (Render_returns ws w o c0 buf h Ho Hc Hb Hh) in H.
  injection H as <- <- <-. exact Hs.
Qed.

Lemma Fini_sized (ws : WS2811) : sized ws -> sized (Fini ws).
Proof. intros Hs. exact Hs. Qed.

Lemma SetLedsSync_Done_inv (ws ws' : WS2811) (w w' : world) (channel : Z)
    (vals : list N) (r : option error) :
  SetLedsSync ws w channel vals = Done (r, ws', w') ->
  exists (ch : nat) buf, channel = Z.of_nat ch /\ leds ws !! ch = Some buf /\
    ((slen buf < length vals)%nat /\ ws' = ws \/
     buf = None /\ vals = [] /\ ws' = ws \/
     exists l, buf = Some l /\ (length vals <= length l)%nat /\
       ws' = set_leds (<[ch := Some (vals ++ drop (length vals) l)]> (leds ws))
                      ws).
Proof.
  intros H. unfold SetLedsSync in H.
  destruct (Wait ws w) as [[e w1]|] eqn:HW; [|discriminate].
  destruct (Wait_Done_inv _ _ _ _ HW) as (o & c0 & Ho & Hc & -> & ->).
  cbn [rbind] in H.
  destruct (Z.ltb_spec channel 0) as [Hneg|Hpos].
  { rewrite index_out_of_range in H by (left; exact Hneg). discriminate. }
  destruct (leds ws !! Z.to_nat channel) as [buf|] eqn:Hb.
  2:{ rewrite index_out_of_range in H; [discriminate|].
      right. apply lookup_ge_None in Hb. lia. }
  exists (Z.to_nat channel), buf.
  split; [lia|]. split; [exact Hb|].
  replace channel with (Z.of_nat (Z.to_nat channel)) in H by lia.
  rewrite (index_lookup _ _ _ Hb) in H. cbn [rbind] in H.
  destruct (Nat.ltb_spec (slen buf) (length vals)) as [Hlt|Hge].
  - left. injection H as _ <- _. split; [exact Hlt|reflexivity].
  - right. destruct buf as [l|]; cbn [slen] in *.
    + right. exists l. split; [reflexivity|]. split; [exact Hge|].
      rewrite (SetLeds_loop_copies (length vals) 0 _ vals (leds ws) l Hb)
        in H by lia.
      cbn [rbind Nat.add] in H. rewrite take_0, drop_0, firstn_all in H.
      injection H as _ <- _. reflexivity.
    + left. destruct vals as [|v vals]; [|cbn [length] in Hge; lia].
      cbn [length SetLeds_loop rbind] in H. injection H as _ <- _.
      now rewrite set_leds_same.
Qed.

Lemma SetLedsSync_sized (ws ws' : WS2811) (w w' : world) (channel : Z)
    (vals : list N) (r : option error) :
  sized ws -> SetLedsSync ws w channel vals = Done (r, ws', w') -> sized ws'.
Proof.
  intros Hs H.
  destruct (SetLedsSync_Done_inv _ _ _ _ _ _ _ H)
    as (ch & buf & _ & Hb & [[_ ->]|[(_ & _ & ->)|(l & -> & Hle & ->)]]);
    try exact Hs.
  apply (sized_set_slot ws ch l _ Hs Hb).
  rewrite length_app, length_drop. lia.
Qed.

Lemma SetLedsSync_keeps_initialized (ws ws' : WS2811) (w w' : world)
    (channel : Z) (vals : list N) (r : option error) :
  SetLedsSync ws w channel vals = Done (r, ws', w') ->
  initialized ws' = initialized ws.
Proof.
  intros H.
  destruct (SetLedsSync_Done_inv _ _ _ _ _ _ _ H)
    as (ch & buf & _ & Hb & [[_ ->]|[(_ & _ & ->)|(l & -> & Hle & ->)]]);
    reflexivity.
Qed.

(** Every device a program can hold has its flag clear and is either
    untouched by [Init] or consistent. *)
Lemma reachable_inv (ws : WS2811) :
  reachable ws -> initialized ws = false /\ (leds ws = [] \/ sized ws).
Proof.
  induction 1 as [opt h|ws r ws' _ [IHi IHs] H|ws _ [IHi IHs]
                 |ws w r ws' w' _ [IHi IHs] H
                 |ws w channel vals r ws' w' _ [IHi IHs] H].
  - split; [reflexivity|left; reflexivity].
  - split.
    + rewrite (Init_keeps_initialized _ _ _ H). exact IHi.
    + right. exact (Init_sized _ _ _ IHi H).
  - split; [reflexivity|]. destruct IHs as [Hl|Hs]; [left; exact Hl|].
    right. exact (Fini_sized ws Hs).
  - destruct (Render_Done_inv _ _ _ _ _ H)
      as (o & c0 & buf & h & Ho & Hc & Hb & Hh).
    destruct IHs as [Hl|Hs]; [rewrite Hl in Hb; discriminate|].
    rewrite (Render_returns ws w o c0 buf h Ho Hc Hb Hh) in H.
    injection H as _ <- _. split; [exact IHi|right; exact Hs].
  - destruct IHs as [Hl|Hs].
    + destruct (SetLedsSync_Done_inv _ _ _ _ _ _ _ H) as (ch & buf & _ & Hb & _).
      rewrite Hl in Hb. discriminate.
    + split; [|right; exact (SetLedsSync_sized _ _ _ _ _ _ _ Hs H)].
      rewrite (SetLedsSync_keeps_initialized _ _ _ _ _ _ _ H). exact IHi.
Qed.

Lemma demo_ws_reachable : reachable demo_ws.
Proof.
  apply (reach_Init (MakeWS2811 (Some demo_options) (Some 0%nat)) None);
    [constructor|reflexivity].
Qed.



(** C7: in every call of [Render] that returns, the send on the hub's
    [broadcast] channel is the last event but one and the only send; the
    last event is the clock read whose value becomes [lastRender]. *)
Theorem Render_stamps_after_handoff (ws ws' : WS2811) (w w' : world)
    (r : option error) :
  Render ws w = Done (r, ws', w') ->
  exists pre h msg t,
    events w' = events w ++ pre ++ [EvBroadcast h msg; EvNow t] /\
    forallb (fun e => negb (is_broadcast e)) pre = true /\
    lastRender ws' = t /\
    t = clock w'.
Proof.
  intros H.
  destruct (Render_Done_inv _ _ _ _ _ H) as (o & c0 & buf & h & Ho & Hc & Hb & Hh).
  rewrite (Render_returns ws w o c0 buf h Ho Hc Hb Hh) in H.
  injection H as <- <- <-.
  exists [EvNow (clock w);
          EvSleep (Time_Sub (lastRender ws +
                             render_duration (LedCount c0) (Frequency o)) (clock w))],
    h, (json_Marshal (mkPayload c0 buf)), (clock (waited ws o c0 w)).
  split.
  { cbn [events]. rewrite <- !app_assoc. reflexivity. }
  repeat split.
Qed.

Lemma Render_stamps_after_handoff_witness :
  exists ws' w' pre h msg t,
    Render demo_ws demo_world = Done (None, ws', w') /\
    events w' = events demo_world ++ pre ++ [EvBroadcast h msg; EvNow t] /\
    forallb (fun e => negb (is_broadcast e)) pre = true /\
    lastRender ws' = t /\
    t = clock w'.
Proof.
  eexists _, _.
  assert (H : Render demo_ws demo_world = Done (None, _, _))
    by (vm_compute; reflexivity).
  destruct (Render_stamps_after_handoff _ _ _ _ _ H) as (pre & h & msg & t & Hrest).
  exists pre, h, msg, t. split; [exact H|exact Hrest].
Defined.

(** C1: the code never records that [Init] ran.  On every device a program
    can hold the [initialized] flag is clear, so a call of [Init] that returns
    returns [nil], never the "already initialized" error, and so does the call
    after it, which allocates the buffers again. *)
Theorem Init_twice_returns_nil (ws ws1 : WS2811) (r : option error) :
  reachable ws ->
  Init ws = Done (r, ws1) ->
  r = None /\ initialized ws1 = false /\ Init ws1 = Done (None, ws1).
Proof.
  intros Hr H. destruct (reachable_inv ws Hr) as [Hi _].
  destruct (Init_again ws ws1 r Hi H) as [-> H2].
  split; [reflexivity|]. split; [|exact H2].
  rewrite (Init_keeps_initialized _ _ _ H). exact Hi.
Qed.

Lemma Init_twice_returns_nil_witness :
  Init (MakeWS2811 (Some demo_options) (Some 0%nat)) = Done (None, demo_ws) /\
  Init demo_ws = Done (None, demo_ws).
Proof.
  split; [reflexivity|].
  apply (Init_twice_returns_nil (MakeWS2811 (Some demo_options) (Some 0%nat))
           demo_ws None); [constructor|reflexivity].
Defined.

(** ** The websocket client *)

Lemma append_assoc (a b c : string) :
  String.append (String.append a b) c = String.append a (String.append b c).
Proof.
  induction a as [|x a IH]; [reflexivity|].
  change (String x (String.append (String.append a b) c) =
          String x (String.append a (String.append b c))).
  now rewrite IH.
Qed.

Lemma append_empty_r (a : string) : String.append a EmptyString = a.
Proof.
  induction a as [|x a IH]; [reflexivity|].
  change (String x (String.append a EmptyString) = String x a).
  now rewrite IH.
Qed.

Lemma join_cons (m : string) (ms : list string) :
  join (m :: ms) = String.append m (join ms).
Proof. reflexivity. Qed.

Lemma join_app (l1 l2 : list string) :
  join (l1 ++ l2) = String.append (join l1) (join l2).
Proof.
  induction l1 as [|m l1 IH]; [reflexivity|].
  rewrite <- app_comm_cons, !join_cons, IH. now rewrite append_assoc.
Qed.

Lemma next_fault_none (k : Conn) :
  no_fault k ->
  exists fs, next_fault k = (None, fs) /\ Forall (fun f => f = None) fs.
Proof.
  unfold no_fault, next_fault. intros H.
  destruct (faults k) as [|f fs]; [now exists []|].
  inversion H as [|? ? Hf Hfs]; subst. now exists fs.
Qed.

Lemma Write_ok (p b : string) (k : Conn) :
  no_fault k -> writer k = Some b ->
  exists k', Write p k = (None, k') /\ no_fault k' /\
    writer k' = Some (String.append b p) /\ sent k' = sent k.
Proof.
  intros Hf Hw. destruct (next_fault_none k Hf) as (fs & Hn & Hfs).
  unfold Write. rewrite Hn, Hw. eexists. split; [reflexivity|].
  repeat split. exact Hfs.
Qed.

(** The loop takes the [n] oldest messages, in order, into the open
    message; what the hub enqueues meanwhile stays in the queue. *)
Lemma drain_ok (n : nat) :
  forall (c : Client) (b : string),
    no_fault (conn c) ->
    writer (conn c) = Some b ->
    (n <= length (send c))%nat ->
    exists c', drain n c = (Returned None, c') /\
      no_fault (conn c') /\
      writer (conn c') = Some (String.append b (join (take n (send c)))) /\
      sent (conn c') = sent (conn c) /\
      send c' = drop n (send c) ++ concat (take n (arrivals c)) /\
      arrivals c' = drop n (arrivals c) /\
      closed c' = closed c.
Proof.
  induction n as [|n IH]; intros c b Hf Hw Hn.
  - exists c. cbn [drain]. rewrite take_0, !drop_0. cbn [join foldr concat].
    rewrite append_empty_r, app_nil_r. repeat split; assumption.
  - destruct (send c) as [|m q] eqn:Hq; [simpl in Hn; lia|].
    cbn [length] in Hn.
    set (a := match arrivals c with [] => [] | a :: _ => a end).
    set (c1 := mkClient (conn c) (q ++ a) (closed c) (tl (arrivals c))).
    assert (Hrecv : chan_recv c = (Some (m, true), c1)).
    { unfold chan_recv, hub_turn, c1, a.
      destruct (arrivals c) as [|a0 rest] eqn:Ha.
      - rewrite Hq, Ha, app_nil_r. reflexivity.
      - cbn [send conn closed arrivals]. rewrite Hq. reflexivity. }
    destruct (Write_ok m b (conn c1) Hf Hw) as (k & HW & Hkf & Hkw & Hks).
    destruct (IH (set_conn k c1) (String.append b m) Hkf Hkw)
      as (c' & Hd & Hf' & Hw' & Hs' & Hq' & Ha' & Hc').
    { cbn [set_conn send c1]. rewrite length_app. lia. }
    exists c'. cbn [drain]. rewrite Hrecv, HW. split; [exact Hd|].
    split; [exact Hf'|]. cbn [set_conn send conn arrivals closed c1] in *.
    split; [|split; [|split; [|split]]].
    + rewrite Hw'. rewrite take_app_le by lia.
      rewrite firstn_cons, join_cons, append_assoc. reflexivity.
    + now rewrite Hs', Hks.
    + rewrite Hq'. rewrite drop_app_le by lia. cbn [drop].
      rewrite <- app_assoc. f_equal. unfold a.
      destruct (arrivals c) as [|a0 rest]; cbn [tail];
        [now rewrite !take_nil|].
      reflexivity.
    + rewrite Ha'. destruct (arrivals c); cbn [tail];
        [now rewrite !drop_nil|reflexivity].
    + exact Hc'.
Qed.

(** What a call of [sendMessage] does when the transport does not fail. *)
Lemma sendMessage_one_unit (c : Client) (message : string) :
  no_fault (conn c) ->
  writer (conn c) = None ->
  let queued := send c in
  let extra := hd [] (arrivals c) in
  exists c',
    sendMessage message c = (Returned None, c') /\
    sent (conn c') =
      sent (conn c) ++
      [TextMessage (String.append message (join (queued ++ extra)))] /\
    writer (conn c') = None /\
    send c' = concat (take (length (queued ++ extra)) (tl (arrivals c))) /\
    (arrivals c = [] ->
       sent (conn c') =
         sent (conn c) ++ [TextMessage (String.append message (join queued))] /\
       send c' = []).
Proof.
  intros Hf Hw queued extra.
  destruct (next_fault_none (conn c) Hf) as (fs & Hn & Hfs).
  set (k1 := mkConn (sent (conn c)) (Some EmptyString) fs).
  assert (HN : NextWriter (conn c) = (None, k1))
    by (unfold NextWriter; rewrite Hn, Hw; reflexivity).
  destruct (Write_ok message EmptyString k1 Hfs eq_refl)
    as (k2 & HW & Hf2 & Hw2 & Hs2).
  set (c3 := mkClient k2 (queued ++ extra) (closed c) (tl (arrivals c))).
  assert (HL : chan_len (set_conn k2 c) = (length (queued ++ extra), c3)).
  { unfold chan_len, hub_turn, c3, extra, queued, set_conn.
    cbn [arrivals send conn closed].
    destruct (arrivals c) as [|a rest]; cbn [hd tail send conn closed];
      [rewrite app_nil_r|]; reflexivity. }
  destruct (drain_ok (length (queued ++ extra)) c3 _ Hf2 Hw2)
    as (c4 & Hd & Hf4 & Hw4 & Hs4 & Hq4 & Ha4 & Hc4); [reflexivity|].
  cbn [c3 send conn arrivals] in Hw4, Hs4, Hq4.
  rewrite firstn_all in Hw4. rewrite drop_all in Hq4. cbn [app] in Hq4.
  destruct (next_fault_none (conn c4) Hf4) as (fs4 & Hn4 & Hfs4).
  set (unit := String.append message (join (queued ++ extra))).
  assert (HC : Close (conn c4) =
               (None, mkConn (sent (conn c4) ++ [TextMessage unit]) None fs4)).
  { unfold Close. rewrite Hn4, Hw4. reflexivity. }
  eexists. unfold sendMessage. rewrite HN, HW, HL, Hd, HC.
  split; [reflexivity|]. cbn [set_conn conn sent writer send].
  rewrite Hs4, Hs2. cbn [k1 sent].
  split; [reflexivity|]. split; [reflexivity|]. split; [exact Hq4|].
  intros Hnil. subst unit extra. rewrite Hq4, Hnil. cbn [hd tl].
  rewrite app_nil_r, take_nil. split; reflexivity.
Qed.

(** C8: the message branch of [writePump], with no transport failure.  When
    the pump takes [m] from a queue that holds [K] further messages [q], the
    transport is handed exactly one new message: [m] followed by all of [q],
    oldest first, followed by whatever the hub enqueued while the pump was
    between the receive and reading the queue length (nothing, when the hub
    was idle); the pump goes on, and with an idle hub the queue is empty. *)
Theorem writePump_message_coalesces (c : Client) (m : string)
    (q : list string) :
  no_fault (conn c) ->
  writer (conn c) = None ->
  send c = m :: q ->
  let late := hd [] (arrivals c) ++ hd [] (tail (arrivals c)) in
  exists c',
    writePump_message c = (Continue, c') /\
    sent (conn c') =
      sent (conn c) ++ [TextMessage (String.append m (join (q ++ late)))] /\
    writer (conn c') = None /\
    (arrivals c = [] ->
       sent (conn c') =
         sent (conn c) ++ [TextMessage (String.append m (join q))] /\
       send c' = []).
Proof.
  intros Hf Hw Hq late.
  set (c1 := mkClient (conn c) (q ++ hd [] (arrivals c)) (closed c)
                      (tail (arrivals c))).
  assert (Hrecv : chan_recv c = (Some (m, true), c1)).
  { unfold chan_recv, hub_turn, c1.
    destruct (arrivals c) as [|a0 rest] eqn:Ha; cbn [hd tail].
    - rewrite Hq, Ha, app_nil_r. reflexivity.
    - cbn [send conn closed arrivals]. rewrite Hq. reflexivity. }
  destruct (sendMessage_one_unit c1 m Hf Hw)
    as (c' & Hr & Hs & Hw' & _ & Hidle).
  exists c'. unfold writePump_message. rewrite Hrecv, Hr.
  split; [reflexivity|]. cbn [c1 send conn arrivals] in Hs, Hidle.
  split; [rewrite Hs, <- app_assoc; reflexivity|]. split; [exact Hw'|].
  intros Hnil. rewrite Hnil in Hidle. cbn [hd tail] in Hidle.
  rewrite app_nil_r in Hidle. exact (Hidle eq_refl).
Qed.

Lemma writePump_message_coalesces_witness :
  exists c',
    writePump_message example_client = (Continue, c') /\
    sent (conn c') = [TextMessage "abcd"] /\
    send c' = [].
Proof.
  destruct (writePump_message_coalesces example_client "a"
              ["b"; "c"; "d"]%string)
    as (c' & Hr & _ & _ & Hidle).
  - constructor.
  - reflexivity.
  - reflexivity.
  - exists c'. split; [exact Hr|]. exact (Hidle eq_refl).
Defined.

(** ** Reading is stable under heap extension *)

Lemma load_bytes_mono (σ σ' : heap) s v :
  σ ⊆ σ' -> load_bytes σ s = Some v -> load_bytes σ' s = Some v.
Proof.
  intros Hsub. destruct s as [r|]; cbn [load_bytes]; [|done].
  destruct (σ !! base r) as [[| |bs]|] eqn:Hl; try done.
  now rewrite (lookup_weaken _ _ _ _ Hl Hsub).
Qed.

Lemma load_channel_mono (σ σ' : heap) c v :
  σ ⊆ σ' -> load_channel σ c = Some v -> load_channel σ' c = Some v.
Proof.
  intros Hsub. unfold load_channel.
  destruct (load_bytes σ (cell_Gamma c)) as [g|] eqn:Hg; [|done].
  now rewrite (load_bytes_mono σ σ' _ _ Hsub Hg).
Qed.

Lemma load_channel_list_mono (σ σ' : heap) cs vs :
  σ ⊆ σ' -> mapM (load_channel σ) cs = Some vs ->
  mapM (load_channel σ') cs = Some vs.
Proof.
  intros Hsub. rewrite !mapM_Some. intros H.
  eapply Forall2_impl; [exact H|]. intros c v. now apply load_channel_mono.
Qed.

Lemma window_length {A} (s : slice_ref) (arr l : list A) :
  window s arr = Some l -> length l = len s.
Proof.
  unfold window. destruct (Nat.leb_spec (off s + len s) (length arr)); [|done].
  intros [= <-]. rewrite length_take, length_drop. lia.
Qed.

Lemma window_whole {A} (l : list A) (b : loc) :
  window (mkSliceRef b 0 (length l)) l = Some l.
Proof.
  unfold window. cbn [off len]. rewrite Nat.leb_refl, drop_0.
  now rewrite firstn_all.
Qed.

Lemma alloc_spec (σ : heap) (o : object) l σ' :
  alloc σ o = (l, σ') -> σ !! l = None /\ σ' !! l = Some o /\ σ ⊆ σ'.
Proof.
  unfold alloc. intros [= <- <-].
  assert (Hfresh : σ !! fresh (dom σ) = None)
    by (apply not_elem_of_dom, is_fresh).
  split; [exact Hfresh|]. split; [apply lookup_insert_eq|].
  now apply insert_subseteq.
Qed.

Lemma covers_trans_l (σ σ1 σ2 τ : heap) :
  σ1 ⊆ σ2 -> covers σ σ2 τ -> covers σ σ1 τ.
Proof.
  intros Hsub Hc l x Hl Hn. apply Hc; [|exact Hn].
  exact (lookup_weaken _ _ _ _ Hl Hsub).
Qed.

Lemma covers_trans_r (σ σ1 σ2 τ : heap) :
  σ ⊆ σ1 -> covers σ σ2 τ -> covers σ1 σ2 τ.
Proof.
  intros Hsub Hc l x Hl Hn. apply Hc; [exact Hl|].
  destruct (σ !! l) as [y|] eqn:Hy; [|done].
  rewrite (lookup_weaken _ _ _ _ Hy Hsub) in Hn. done.
Qed.

(** ** [deepcopy.Copy] builds the same configuration out of new cells *)

#[local] Arguments alloc : simpl never.

Lemma copy_bytes_spec (σ : heap) s v :
  load_bytes σ s = Some v ->
  exists s' σ', copy_bytes σ s = Some (s', σ') /\ σ ⊆ σ' /\
    forall τ, covers σ σ' τ -> load_bytes τ s' = Some v.
Proof.
  destruct s as [r|]; cbn [load_bytes copy_bytes].
  - destruct (σ !! base r) as [[| |bs]|] eqn:Hl; try done.
    destruct (window r bs) as [bs'|] eqn:Hw; [|done]. intros [= <-]. cbn.
    destruct (alloc σ (ObjBytes bs')) as [l σ'] eqn:Ha.
    destruct (alloc_spec _ _ _ _ Ha) as (Hn & Hs & Hsub).
    exists (Some (mkSliceRef l 0 (len r))), σ'. cbn.
    split; [reflexivity|]. split; [exact Hsub|].
    intros τ Hc. cbn [load_bytes base]. rewrite (Hc l _ Hs Hn).
    rewrite <- (window_length _ _ _ Hw). now rewrite window_whole.
  - intros [= <-]. exists None, σ. repeat split; done.
Qed.

Lemma copy_channel_spec (σ : heap) c v :
  load_channel σ c = Some v ->
  exists c' σ', copy_channel σ c = Some (c', σ') /\ σ ⊆ σ' /\
    forall τ, covers σ σ' τ -> load_channel τ c' = Some v.
Proof.
  unfold load_channel, copy_channel.
  destruct (load_bytes σ (cell_Gamma c)) as [g|] eqn:Hg; [|done].
  cbn. intros [= <-].
  destruct (copy_bytes_spec σ _ _ Hg) as (s' & σ' & Hcp & Hsub & Hld).
  rewrite Hcp. cbn. eexists _, σ'. split; [reflexivity|].
  split; [exact Hsub|]. intros τ Hc. cbn. now rewrite (Hld τ Hc).
Qed.

Lemma copy_channel_list_spec (cs : list ChannelOption_cell) :
  forall (σ : heap) vs,
    mapM (load_channel σ) cs = Some vs ->
    exists cs' σ', copy_channel_list σ cs = Some (cs', σ') /\ σ ⊆ σ' /\
      length cs' = length cs /\
      forall τ, covers σ σ' τ -> mapM (load_channel τ) cs' = Some vs.
Proof.
  induction cs as [|c cs IH]; intros σ vs Hload.
  - cbn in Hload. injection Hload as <-.
    exists [], σ. repeat split; done.
  - apply mapM_Some in Hload.
    inversion Hload as [|? v ? vs' Hc Hrest]; subst.
    apply mapM_Some in Hrest.
    destruct (copy_channel_spec σ c v Hc) as (c' & σ1 & Hcp & Hsub1 & Hld1).
    destruct (IH σ1 vs' (load_channel_list_mono _ _ _ _ Hsub1 Hrest))
      as (cs' & σ2 & Hcps & Hsub2 & Hlen & Hld2).
    exists (c' :: cs'), σ2. cbn [copy_channel_list]. rewrite Hcp. cbn.
    rewrite Hcps. cbn. split; [reflexivity|].
    split; [now transitivity σ1|]. split; [now rewrite Hlen|].
    intros τ Hc'. cbn.
    rewrite (Hld1 τ (covers_trans_l _ _ _ _ Hsub2 Hc')). cbn.
    rewrite (Hld2 τ (covers_trans_r _ _ _ _ Hsub1 Hc')). reflexivity.
Qed.

Lemma copy_channels_spec (σ : heap) s vs :
  load_channels σ s = Some vs ->
  exists s' σ', copy_channels σ s = Some (s', σ') /\ σ ⊆ σ' /\
    forall τ, covers σ σ' τ -> load_channels τ s' = Some vs.
Proof.
  destruct s as [r|]; cbn [load_channels copy_channels].
  - destruct (σ !! base r) as [[|cs|]|] eqn:Hl; try done.
    destruct (window r cs) as [cs0|] eqn:Hw; [|done]. cbn. intros Hload.
    destruct (copy_channel_list_spec cs0 σ vs Hload)
      as (cs' & σ1 & Hcp & Hsub1 & Hlen & Hld).
    rewrite Hcp. cbn.
    destruct (alloc σ1 (ObjChannels cs')) as [l σ2] eqn:Ha.
    destruct (alloc_spec _ _ _ _ Ha) as (Hn & Hs & Hsub2).
    exists (Some (mkSliceRef l 0 (len r))), σ2. split; [reflexivity|].
    split; [now transitivity σ1|].
    intros τ Hc. cbn [load_channels base].
    assert (Hnσ : σ !! l = None).
    { destruct (σ !! l) as [y|] eqn:Hy; [|done].
      rewrite (lookup_weaken _ _ _ _ Hy Hsub1) in Hn. done. }
    rewrite (Hc l _ Hs Hnσ).
    rewrite <- (window_length _ _ _ Hw), <- Hlen, window_whole. cbn.
    apply Hld. exact (covers_trans_l _ _ _ _ Hsub2 Hc).
  - intros [= <-]. exists None, σ. repeat split; done.
Qed.

Lemma copy_Option_spec (σ : heap) p cfg :
  load_Option σ p = Some cfg ->
  exists p' σ', copy_Option σ p = Some (p', σ') /\ σ ⊆ σ' /\
    forall τ, covers σ σ' τ -> load_Option τ p' = Some cfg.
Proof.
  destruct p as [l|]; cbn [load_Option copy_Option].
  - destruct (σ !! l) as [[o| |]|] eqn:Hl; try done.
    destruct (load_channels σ (cell_Channels o)) as [cs|] eqn:Hcs; [|done].
    cbn. intros [= <-].
    destruct (copy_channels_spec σ _ _ Hcs) as (s' & σ1 & Hcp & Hsub1 & Hld).
    rewrite Hcp. cbn.
    destruct (alloc σ1 _) as [l' σ2] eqn:Ha.
    destruct (alloc_spec _ _ _ _ Ha) as (Hn & Hs & Hsub2).
    exists (Some l'), σ2. split; [reflexivity|].
    split; [now transitivity σ1|].
    intros τ Hc. cbn [load_Option].
    assert (Hnσ : σ !! l' = None).
    { destruct (σ !! l') as [y|] eqn:Hy; [|done].
      rewrite (lookup_weaken _ _ _ _ Hy Hsub1) in Hn. done. }
    rewrite (Hc l' _ Hs Hnσ). cbn.
    now rewrite (Hld τ (covers_trans_l _ _ _ _ Hsub2 Hc)).
  - intros [= <-]. exists None, σ. repeat split; done.
Qed.

Lemma covers_refl (σ σ' : heap) : covers σ σ' σ'.
Proof. intros l x Hl _. exact Hl. Qed.





(** The copy matters: a device that kept the caller's pointer would send a
    different frame after the caller overwrites its gamma table. *)
Lemma aliased_configuration_leaks :
  let r0 : WS2811_ref := mkWS2811 false (Some 1%positive) [] (Some 0%nat) 0 in
  run [Invoke CallInit;
       Mutate 3%positive (ObjBytes [Byte.xff; Byte.xff; Byte.xff; Byte.xff]);
       Invoke CallRender] caller_heap r0 demo_world <>
  run [Invoke CallInit; Invoke CallRender] caller_heap r0 demo_world.
Proof. intros r0 H. vm_compute in H. discriminate H. Qed.

(** * Further properties of the device *)

(** ** When the methods return *)



(** X3: [SetLedsSync] returns (an error or [nil]) exactly when [Wait]
    returns and the channel index is a slot of the frame buffer; the copy
    loop itself never panics. *)
Theorem SetLedsSync_returns_iff (ws : WS2811) (w : world) (channel : Z)
    (vals : list N) :
  (exists r ws' w', SetLedsSync ws w channel vals = Done (r, ws', w')) <->
  (exists o c0 (ch : nat) buf,
     options ws = Some o /\ Channels o !! 0%nat = Some c0 /\
     channel = Z.of_nat ch /\ leds ws !! ch = Some buf).
Proof.
  split.
  - intros (r & ws' & w' & H).
    destruct (SetLedsSync_Done_inv _ _ _ _ _ _ _ H) as (ch & buf & -> & Hb & _).
    unfold SetLedsSync in H.
    destruct (Wait ws w) as [[e w1]|] eqn:HW; [|discriminate].
    destruct (Wait_Done_inv _ _ _ _ HW) as (o & c0 & Ho & Hc & _).
    exists o, c0, ch, buf. auto.
  - intros (o & c0 & ch & buf & Ho & Hc & -> & Hb).
    destruct (Nat.ltb_spec (slen buf) (length vals)) as [Hlt|Hge].
    + rewrite (SetLedsSync_rejects ws w o c0 ch buf vals Ho Hc Hb Hlt). eauto.
    + destruct buf as [l|].
      * rewrite (SetLedsSync_fits ws w o c0 ch l vals Ho Hc Hb Hge). eauto.
      * cbn [slen] in Hge. destruct vals as [|v vals]; [|cbn in Hge; lia].
        unfold SetLedsSync.
        rewrite (Wait_returns ws w o c0 Ho Hc). cbn [rbind].
        rewrite (index_lookup _ ch _ Hb).
        cbn [rbind slen length Nat.ltb Nat.leb SetLeds_loop]. eauto.
Qed.



(** ** What the device keeps *)

(** X5: on every device a program can hold, [Fini] changes nothing: the flag
    it clears is never set.  In particular it frees no buffer, and the device
    goes on working after it. *)
Theorem Fini_changes_nothing (ws : WS2811) :
  reachable ws -> Fini ws = ws.
Proof.
  intros Hr. destruct (reachable_inv ws Hr) as [Hi _].
  destruct ws as [i o l h t]. cbn in Hi. subst i. reflexivity.
Qed.

Lemma Fini_changes_nothing_witness : Fini demo_ws = demo_ws.
Proof. exact (Fini_changes_nothing demo_ws demo_ws_reachable). Defined.

(** X6: whatever was written before, a call of [Init] that returns leaves
    every configured channel with a buffer of zeros: calling [Init] again
    wipes the frame. *)
Theorem Init_wipes_frame (ws ws' : WS2811) (r : option error) :
  reachable ws ->
  Init ws = Done (r, ws') ->
  exists o, options ws' = Some o /\
    forall (i : nat) c, Channels o !! i = Some c ->
      Leds ws' (Z.of_nat i) =
        Done (Some (replicate (Z.to_nat (LedCount c)) 0%N)).
Proof.
  intros Hr H. destruct (reachable_inv ws Hr) as [Hi _].
  destruct (Init_Done_inv _ _ _ Hi H) as (o & Ho & Hlen & Hpos).
  rewrite (Init_fits ws o Hi Ho Hlen Hpos) in H. injection H as _ <-.
  exists o. split; [exact Ho|]. intros i c Hc. unfold Leds.
  apply index_lookup. cbn [set_leds leds]. rewrite lookup_app_l.
  - now apply fresh_buffers_lookup.
  - unfold fresh_buffers. rewrite length_map. now apply lookup_lt_Some in Hc.
Qed.

Lemma painted_ws_reachable : reachable painted_ws.
Proof.
  apply (reach_SetLedsSync demo_ws demo_world 0 [7; 8; 9]%N None painted_ws
           (waited demo_ws demo_options (demo_channel 3) demo_world));
    [exact demo_ws_reachable|vm_compute; reflexivity].
Qed.

Lemma Init_wipes_frame_witness :
  Leds painted_ws 0 = Done (Some [7; 8; 9]%N) /\
  exists o, options demo_ws = Some o /\
    forall (i : nat) c, Channels o !! i = Some c ->
      Leds demo_ws (Z.of_nat i) =
        Done (Some (replicate (Z.to_nat (LedCount c)) 0%N)).
Proof.
  split; [reflexivity|].
  apply (Init_wipes_frame painted_ws demo_ws None painted_ws_reachable).
  reflexivity.
Defined.

(** X7: on every device a program can hold the flag is clear, the frame
    buffer has no slot (before [Init]) or [RpiPwmChannels] slots, and every
    buffer in it belongs to a configured channel and has that channel's LED
    count: no method changes the length of a buffer. *)
Theorem reachable_buffers_keep_length (ws : WS2811) :
  reachable ws ->
  initialized ws = false /\
  (length (leds ws) = 0%nat \/ length (leds ws) = RpiPwmChannels) /\
  forall (i : nat) l, leds ws !! i = Some (Some l) ->
    exists o c, options ws = Some o /\ Channels o !! i = Some c /\
                Z.of_nat (length l) = LedCount c.
Proof.
  intros Hr. destruct (reachable_inv ws Hr) as [Hi [Hnil|Hs]].
  - split; [exact Hi|]. rewrite Hnil. split; [left; reflexivity|].
    intros i l H. discriminate H.
  - destruct Hs as (o & Ho & Hlen & Hcfg & Hrest).
    split; [exact Hi|]. split; [right; exact Hlen|].
    intros i l Hl. exists o.
    destruct (Channels o !! i) as [c|] eqn:Hc.
    + exists c. destruct (Hcfg i c Hc) as (l' & Hl' & Hsz).
      rewrite Hl in Hl'. injection Hl' as <-. auto.
    + exfalso. apply lookup_ge_None in Hc.
      assert (Hi2 : (i < RpiPwmChannels)%nat)
        by (rewrite <- Hlen; now apply lookup_lt_Some in Hl).
      rewrite (Hrest i (conj Hc Hi2)) in Hl. discriminate.
Qed.

Lemma reachable_buffers_keep_length_witness :
  initialized painted_ws = false /\
  (length (leds painted_ws) = 0%nat \/ length (leds painted_ws) = RpiPwmChannels) /\
  forall (i : nat) l, leds painted_ws !! i = Some (Some l) ->
    exists o c, options painted_ws = Some o /\ Channels o !! i = Some c /\
                Z.of_nat (length l) = LedCount c.
Proof. exact (reachable_buffers_keep_length painted_ws painted_ws_reachable). Defined.

(** ** Pacing on the ideal clock *)

Lemma int64_of_float_range (f : float) :
  minDuration <= int64_of_float f <= maxDuration.
Proof.
  unfold int64_of_float.
  assert (Hmm : minDuration <= 0 <= maxDuration) by (split; discriminate).
  destruct (Prim2SF f) as [b|b| |b m e]; try lia.
  match goal with
  | |- context [if ?t then _ else _] => destruct t eqn:Ht
  end; [|lia].
  apply andb_true_iff in Ht. destruct Ht as [H1 H2].
  apply Z.leb_le in H1. apply Z.leb_le in H2. lia.
Qed.

Lemma Time_Sub_exact (t u : Time) :
  minDuration <= t - u <= maxDuration -> Time_Sub t u = t - u.
Proof. intros H. unfold Time_Sub. lia. Qed.

(** X8: [Wait] returns with the clock at [lastRender] plus the render
    duration, or where it was when that instant is already past, provided
    the instant is less than the largest [Duration] ahead (otherwise
    [time.Until] saturates). *)
Theorem Wait_paces (ws : WS2811) (w : world) (o : Option) (c0 : ChannelOption) :
  options ws = Some o ->
  Channels o !! 0%nat = Some c0 ->
  let nextRender :=
    lastRender ws + render_duration (LedCount c0) (Frequency o) in
  nextRender - clock w <= maxDuration ->
  exists w', Wait ws w = Done (None, w') /\
             clock w' = Z.max (clock w) nextRender.
Proof.
  intros Ho Hc nextRender Hsat. exists (waited ws o c0 w).
  split; [exact (Wait_returns ws w o c0 Ho Hc)|].
  destruct (Wait_sleeps ws w o c0) as [-> _]. fold nextRender.
  assert (Hmin : minDuration < 0) by reflexivity.
  assert (Hmax : 0 < maxDuration) by reflexivity.
  clearbody nextRender. unfold Time_Sub. lia.
Qed.

Lemma Wait_paces_witness :
  exists w', Wait (set_lastRender 999999999000 demo_ws) demo_world =
               Done (None, w') /\
             clock w' = Z.max (clock demo_world)
                          (999999999000 + render_duration 3 TargetFreq).
Proof.
  apply (Wait_paces (set_lastRender 999999999000 demo_ws) demo_world
           demo_options (demo_channel 3)); [reflexivity|reflexivity|].
  vm_compute. discriminate.
Defined.

(** X9: two calls of [Render] in a row that return: the second stamps
    [lastRender] exactly one render duration after the first (no later on
    the ideal clock, and not at all later when the duration is not
    positive). *)
Theorem Render_twice_spacing (ws ws1 ws2 : WS2811) (w w1 w2 : world)
    (r1 r2 : option error) :
  Render ws w = Done (r1, ws1, w1) ->
  Render ws1 w1 = Done (r2, ws2, w2) ->
  exists o c0, options ws = Some o /\ Channels o !! 0%nat = Some c0 /\
    lastRender ws2 =
      lastRender ws1 + Z.max 0 (render_duration (LedCount c0) (Frequency o)).
Proof.
  intros H1 H2.
  destruct (Render_Done_inv _ _ _ _ _ H1)
    as (o & c0 & buf & h & Ho & Hc & Hb & Hh).
  rewrite (Render_returns ws w o c0 buf h Ho Hc Hb Hh) in H1.
  injection H1 as _ <- <-.
  exists o, c0. split; [exact Ho|]. split; [exact Hc|].
  set (t1 := clock (waited ws o c0 w)) in *.
  rewrite (Render_returns (set_lastRender t1 ws) _ o c0 buf h Ho Hc Hb Hh) in H2.
  injection H2 as _ <- _. cbn [set_lastRender lastRender].
  subst t1. unfold waited, time_Sleep, Time_Add. cbn [clock].
  set (X := clock w + Z.max 0 _).
  pose proof (int64_of_float_range
                (PrimFloat.mul (render_dt (LedCount c0) (Frequency o))
                               (float64_of_int Second))) as Hr.
  fold (render_duration (LedCount c0) (Frequency o)) in Hr.
  rewrite Time_Sub_exact by lia. f_equal. f_equal. lia.
Qed.

Lemma Render_twice_spacing_witness :
  exists ws1 w1 ws2 w2,
    Render demo_ws demo_world = Done (None, ws1, w1) /\
    Render ws1 w1 = Done (None, ws2, w2) /\
    lastRender ws2 = lastRender ws1 + 90062.
Proof.
  eexists ?[ws1], ?[w1], ?[ws2], ?[w2].
  assert (H1 : Render demo_ws demo_world = Done (None, ?ws1, ?w1))
    by (vm_compute; reflexivity).
  match type of H1 with
  | _ = Done (None, ?a, ?b) =>
      assert (H2 : Render a b = Done (None, ?ws2, ?w2))
        by (vm_compute; reflexivity)
  end.
  split; [exact H1|]. split; [exact H2|].
  destruct (Render_twice_spacing _ _ _ _ _ _ _ _ H1 H2)
    as (o & c0 & Ho & Hc & Hl).
  injection Ho as <-. injection Hc as <-. rewrite Hl. reflexivity.
Defined.



(** The default options, whatever [WS2812Strip] is: [Init] returns
    [nil] with one buffer of [DefaultLedCount] zeros and one nil slot, and the
    render duration is 480062 ns. *)
Theorem DefaultOptions_device (WS2812Strip : Z) (h : option hub_id) :
  Init (MakeWS2811 (Some (DefaultOptions WS2812Strip)) h) =
    Done (None,
          mkWS2811 false (Some (DefaultOptions WS2812Strip))
            [Some (replicate (Z.to_nat DefaultLedCount) 0%N); None] h 0) /\
  forall c0, Channels (DefaultOptions WS2812Strip) !! 0%nat = Some c0 ->
    render_duration (LedCount c0) (Frequency (DefaultOptions WS2812Strip)) =
      480062.
Proof.
  split; [reflexivity|].
  intros c0 [= <-]. cbn [LedCount DefaultOptions Frequency].
  exact render_duration_default.
Qed.

(** * Further properties of [MakeWS2811] on the heap *)

(** X11: [MakeWS2811] writes no cell of the caller: every cell of the heap
    is still there with its content, the caller's pointer still reads the
    same configuration, and the device's pointer is a new one that reads the
    same configuration; the device starts with the flag clear, no frame
    buffer and the hub it was given. *)
Theorem MakeWS2811_leaves_caller_heap (σ : heap) (l : loc)
    (h : option hub_id) (cfg : option Option) :
  load_Option σ (Some l) = Some cfg ->
  exists r σ1,
    MakeWS2811_ref σ (Some l) h = Some (r, σ1) /\
    (forall l' x, σ !! l' = Some x -> σ1 !! l' = Some x) /\
    load_Option σ1 (Some l) = Some cfg /\
    load_Option σ1 (options r) = Some cfg /\
    options r <> Some l /\
    (exists l', options r = Some l' /\ σ !! l' = None) /\
    initialized r = false /\ leds r = [] /\ hub r = h.
Proof.
  intros Hload.
  destruct (copy_Option_spec σ (Some l) cfg Hload)
    as (p & σ1 & Hcp & Hsub & Hld).
  exists (mkWS2811 false p [] h 0), σ1.
  unfold MakeWS2811_ref. rewrite Hcp. cbn.
  split; [reflexivity|].
  split; [intros l' x Hx; exact (lookup_weaken _ _ _ _ Hx Hsub)|].
  split; [|split; [exact (Hld σ1 (covers_refl σ σ1))|]].
  { cbn [load_Option] in Hload |- *.
    destruct (σ !! l) as [[oc| |]|] eqn:Hl; try discriminate.
    rewrite (lookup_weaken _ _ _ _ Hl Hsub).
    destruct (load_channels σ (cell_Channels oc)) as [cs|] eqn:Hcs;
      [|discriminate].
    destruct (copy_channels_spec σ _ _ Hcs) as (s' & σ' & _ & _ & _).
    assert (Hmono : load_channels σ1 (cell_Channels oc) = Some cs).
    { destruct (cell_Channels oc) as [sr|]; cbn [load_channels] in *;
        [|exact Hcs].
      destruct (σ !! base sr) as [[|ccs|]|] eqn:Hb; try discriminate.
      rewrite (lookup_weaken _ _ _ _ Hb Hsub).
      destruct (window sr ccs) as [cs0|]; [|discriminate]. cbn in *.
      exact (load_channel_list_mono σ σ1 _ _ Hsub Hcs). }
    rewrite Hmono. exact Hload. }
  assert (Hfresh : exists l', p = Some l' /\ σ !! l' = None).
  { cbn [copy_Option] in Hcp. cbn [load_Option] in Hload.
    destruct (σ !! l) as [[oc| |]|] eqn:Hl; try discriminate.
    destruct (load_channels σ (cell_Channels oc)) as [cs|] eqn:Hcs;
      [|discriminate].
    destruct (copy_channels_spec σ _ _ Hcs) as (s' & σ' & Hcc & Hsub' & _).
    rewrite Hcc in Hcp. cbn in Hcp.
    destruct (alloc σ' _) as [l' σ2] eqn:Ha.
    destruct (alloc_spec _ _ _ _ Ha) as (Hn & _ & _).
    injection Hcp as <- _. exists l'. split; [reflexivity|].
    destruct (σ !! l') as [y|] eqn:Hy; [|reflexivity].
    rewrite (lookup_weaken _ _ _ _ Hy Hsub') in Hn. discriminate. }
  destruct Hfresh as (l' & -> & Hn). cbn [options].
  split.
  { intros [= ->]. cbn [load_Option] in Hload. rewrite Hn in Hload.
    discriminate. }
  split; [eauto|]. auto.
Qed.

Lemma MakeWS2811_leaves_caller_heap_witness :
  exists r σ1,
    MakeWS2811_ref caller_heap (Some 1%positive) (Some 0%nat) = Some (r, σ1) /\
    σ1 !! 3%positive =
      Some (ObjBytes [Byte.x00; Byte.x01; Byte.x02; Byte.x03]) /\
    options r <> Some 1%positive.
Proof.
  assert (Hload : load_Option caller_heap (Some 1%positive) =
                  Some (Some (mkOption 0 800000
                                [mkChannelOption 3 0 64 0 0 0 0
                                   (Some [Byte.x01; Byte.x02])])))
    by (vm_compute; reflexivity).
  destruct (MakeWS2811_leaves_caller_heap caller_heap 1%positive (Some 0%nat)
              _ Hload)
    as (r & σ1 & Hmk & Hkeep & _ & _ & Hne & _).
  exists r, σ1. split; [exact Hmk|]. split; [|exact Hne].
  apply Hkeep. vm_compute. reflexivity.
Defined.

(** X12: [MakeWS2811] accepts a nil [opt]: it allocates nothing and returns
    a device with a nil configuration, on which [Init], [Wait], [Render] and
    [SetLedsSync] panic with a nil dereference and [Leds] with an index out
    of range. *)
Theorem MakeWS2811_nil_options (σ : heap) (h : option hub_id) :
  MakeWS2811_ref σ None h = Some (mkWS2811 false None [] h 0, σ) /\
  load_Option σ None = Some None /\
  let ws := MakeWS2811 None h in
  Init ws = Panicked NilDereference /\
  (forall w, Wait ws w = Panicked NilDereference) /\
  (forall w, Render ws w = Panicked NilDereference) /\
  (forall w channel vals,
     SetLedsSync ws w channel vals = Panicked NilDereference) /\
  (forall channel, Leds ws channel = Panicked (IndexOutOfRange channel 0)).
Proof.
  split; [reflexivity|]. split; [reflexivity|].
  cbn zeta. split; [reflexivity|]. split; [reflexivity|].
  split; [reflexivity|]. split; [reflexivity|].
  intros channel. apply index_out_of_range. cbn. lia.
Qed.

(** * Further properties of the websocket client *)

Lemma next_fault_shorter (k : Conn) f fs :
  next_fault k = (f, fs) -> no_fault k -> f = None /\ Forall (fun f => f = None) fs.
Proof.
  intros H Hf. destruct (next_fault_none k Hf) as (fs' & Hn & Hfs).
  rewrite Hn in H. injection H as <- <-. auto.
Qed.

Lemma Write_sent (p : string) (k k' : Conn) e :
  Write p k = (e, k') -> sent k' = sent k.
Proof.
  unfold Write. destruct (next_fault k) as [f fs].
  destruct f as [err|]; [intros [= _ <-]; reflexivity|].
  destruct (writer k) as [b|]; intros [= _ <-]; reflexivity.
Qed.

Lemma chan_recv_conn (c c1 : Client) r :
  chan_recv c = (r, c1) -> conn c1 = conn c.
Proof.
  unfold chan_recv, hub_turn.
  destruct (arrivals c) as [|a rest]; cbn [send conn closed arrivals].
  - destruct (send c) as [|m q]; [destruct (closed c)|];
      intros [= _ <-]; reflexivity.
  - destruct (send c ++ a) as [|m q]; [destruct (closed c)|];
      intros [= _ <-]; reflexivity.
Qed.

(** The receive of a non-empty queue yields its oldest message. *)
Lemma chan_recv_ready (c : Client) :
  send c <> [] ->
  exists m c1, chan_recv c = (Some (m, true), c1) /\
    (length (send c) <= S (length (send c1)))%nat.
Proof.
  intros Hne. unfold chan_recv, hub_turn.
  destruct (send c) as [|m q] eqn:Hq; [congruence|].
  destruct (arrivals c) as [|a rest]; cbn [send conn closed arrivals].
  - rewrite Hq. eexists _, _. split; [reflexivity|]. cbn [send length]. lia.
  - rewrite <- app_comm_cons. eexists _, _. split; [reflexivity|].
    cbn [send length]. rewrite length_app. lia.
Qed.

Lemma drain_sent (n : nat) :
  forall (c c' : Client) r, drain n c = (r, c') -> sent (conn c') = sent (conn c).
Proof.
  induction n as [|n IH]; intros c c' r H; cbn [drain] in H.
  - injection H as _ <-. reflexivity.
  - destruct (chan_recv c) as [rv c1] eqn:Hrecv.
    pose proof (chan_recv_conn _ _ _ Hrecv) as Hc1.
    destruct rv as [[m ok]|]; [|injection H as _ <-; now rewrite Hc1].
    destruct (Write m (conn c1)) as [e k] eqn:HW.
    pose proof (Write_sent _ _ _ _ HW) as Hk.
    destruct e as [err|].
    + injection H as _ <-. cbn [set_conn conn]. now rewrite Hk, Hc1.
    + apply IH in H. cbn [set_conn conn] in H. now rewrite H, Hk, Hc1.
Qed.

Lemma drain_never_blocks (n : nat) :
  forall c : Client, (n <= length (send c))%nat -> (drain n c).1 <> Blocked.
Proof.
  induction n as [|n IH]; intros c Hn; cbn [drain]; [discriminate|].
  destruct (chan_recv_ready c) as (m & c1 & Hrecv & Hlen).
  { intros Hnil. rewrite Hnil in Hn. cbn in Hn. lia. }
  rewrite Hrecv. destruct (Write m (conn c1)) as [e k].
  destruct e as [err|]; [discriminate|].
  apply IH. cbn [set_conn send]. lia.
Qed.

(** X13: [sendMessage] never waits on the channel, whatever the transport
    and the hub do: the queue length it read is the number of receives it
    makes, and the pump is the only receiver. *)
Theorem sendMessage_never_blocks (message : string) (c : Client) :
  (sendMessage message c).1 <> Blocked.
Proof.
  unfold sendMessage.
  destruct (NextWriter (conn c)) as [e k1].
  destruct e as [err|]; [discriminate|].
  destruct (Write message k1) as [e k2].
  destruct e as [err|]; [discriminate|].
  destruct (chan_len (set_conn k2 c)) as [n c3] eqn:HL.
  assert (Hn : (n <= length (send c3))%nat)
    by (unfold chan_len in HL; injection HL as <- <-; lia).
  pose proof (drain_never_blocks n c3 Hn) as Hd.
  destruct (drain n c3) as [r c4]. cbn [fst] in Hd.
  destruct r as [[err|]|]; [discriminate| |contradiction].
  destruct (Close (conn c4)) as [e k5]. destruct e; discriminate.
Qed.

(** X14: [sendMessage] is all or nothing towards the transport.  When it
    returns an error no message has been completed; when it returns [nil]
    exactly one text message has been completed, and it starts with
    [message]. *)
Theorem sendMessage_all_or_nothing (message : string) (c c' : Client)
    (r : option error) :
  writer (conn c) = None ->
  sendMessage message c = (Returned r, c') ->
  match r with
  | Some _ => sent (conn c') = sent (conn c)
  | None => exists tail_bytes,
      sent (conn c') =
        sent (conn c) ++ [TextMessage (String.append message tail_bytes)]
  end.
Proof.
  intros Hw H. unfold sendMessage in H.
  destruct (NextWriter (conn c)) as [e k1] eqn:HN.
  assert (Hk1 : sent k1 = sent (conn c)).
  { unfold NextWriter in HN. destruct (next_fault (conn c)) as [f fs].
    destruct f; [|rewrite Hw in HN]; injection HN as _ <-; reflexivity. }
  destruct e as [err|].
  { injection H as <- <-. exact Hk1. }
  destruct (Write message k1) as [e k2] eqn:HW.
  pose proof (Write_sent _ _ _ _ HW) as Hk2.
  destruct e as [err|].
  { injection H as <- <-. cbn [set_conn conn]. congruence. }
  destruct (chan_len (set_conn k2 c)) as [n c3] eqn:HL.
  assert (Hc3 : conn c3 = k2).
  { unfold chan_len, hub_turn, set_conn in HL.
    cbn [arrivals send conn closed] in HL. injection HL as _ <-.
    destruct (arrivals c); reflexivity. }
  destruct (drain n c3) as [rd c4] eqn:HD.
  pose proof (drain_sent _ _ _ _ HD) as Hc4. rewrite Hc3 in Hc4.
  destruct rd as [[err|]|]; [injection H as <- <-; congruence| |discriminate].
  destruct (Close (conn c4)) as [e k5] eqn:HC.
  unfold Close in HC. destruct (next_fault (conn c4)) as [f fs].
  destruct f as [err|].
  { injection HC as <- <-. injection H as <- <-. cbn [set_conn conn sent].
    congruence. }
  (* the writer is still the one opened at the start *)
  assert (Hopen : exists t, writer (conn c4) = Some (String.append message t)).
  { assert (Hw2 : writer k2 = Some message).
    { unfold NextWriter in HN. destruct (next_fault (conn c)) as [f0 fs0].
      destruct f0; [discriminate|]. rewrite Hw in HN. injection HN as <-.
      unfold Write in HW. cbn [writer faults next_fault] in HW.
      destruct (next_fault _) as [f1 fs1]. cbn [writer] in HW.
      destruct f1; [discriminate|]. injection HW as <-. reflexivity. }
    clear - HD Hc3 Hw2. rewrite <- Hc3 in Hw2. clear Hc3.
    assert (Hgen : forall n c3 c4 b,
               writer (conn c3) = Some b ->
               drain n c3 = (Returned None, c4) ->
               exists t, writer (conn c4) = Some (String.append b t)).
    { clear. induction n as [|n IH]; intros c3 c4 b Hb HD; cbn [drain] in HD.
      - injection HD as <-. exists EmptyString. now rewrite append_empty_r.
      - destruct (chan_recv c3) as [rv c1] eqn:Hrecv.
        pose proof (chan_recv_conn _ _ _ Hrecv) as Hc1.
        destruct rv as [[m ok]|]; [|discriminate].
        destruct (Write m (conn c1)) as [e k] eqn:HW.
        destruct e as [err|]; [discriminate|].
        assert (Hk : writer k = Some (String.append b m)).
        { unfold Write in HW. rewrite Hc1, Hb in HW.
          destruct (next_fault (conn c3)) as [f fs].
          destruct f; [discriminate|]. injection HW as <-. reflexivity. }
        destruct (IH (set_conn k c1) c4 (String.append b m) Hk HD) as [t Ht].
        exists (String.append m t).
        rewrite Ht. now rewrite append_assoc. }
    exact (Hgen n c3 c4 message Hw2 HD). }
  destruct Hopen as [t Ht]. rewrite Ht in HC. injection HC as <- <-.
  injection H as <- <-. cbn [set_conn conn sent]. exists t. congruence.
Qed.

Lemma sendMessage_all_or_nothing_witness :
  exists e c',
    sendMessage "a" failing_client = (Returned (Some e), c') /\
    sent (conn c') = sent (conn failing_client).
Proof.
  eexists _, _.
  assert (H : sendMessage "a" failing_client = (Returned (Some _), _))
    by (vm_compute; reflexivity).
  split; [exact H|].
  exact (sendMessage_all_or_nothing "a" failing_client _ _ eq_refl H).
Defined.

(** ** The byte stream through the pump *)

Lemma text_bytes_app (fs gs : list frame) :
  text_bytes (fs ++ gs) = String.append (text_bytes fs) (text_bytes gs).
Proof. unfold text_bytes. now rewrite omap_app, join_app. Qed.

Lemma concat_hd_tail {A} (ls : list (list A)) :
  concat ls = hd [] ls ++ concat (tail ls).
Proof. destruct ls; reflexivity. Qed.

(** [sendMessage] without transport failure, with the whole client state. *)
Lemma sendMessage_accounts (c : Client) (message : string) :
  no_fault (conn c) ->
  writer (conn c) = None ->
  let taken := send c ++ hd [] (arrivals c) in
  exists c',
    sendMessage message c = (Returned None, c') /\
    sent (conn c') =
      sent (conn c) ++ [TextMessage (String.append message (join taken))] /\
    writer (conn c') = None /\
    no_fault (conn c') /\
    send c' = concat (take (length taken) (tail (arrivals c))) /\
    arrivals c' = drop (length taken) (tail (arrivals c)) /\
    closed c' = closed c.
Proof.
  intros Hf Hw taken.
  destruct (next_fault_none (conn c) Hf) as (fs & Hn & Hfs).
  set (k1 := mkConn (sent (conn c)) (Some EmptyString) fs).
  assert (HN : NextWriter (conn c) = (None, k1))
    by (unfold NextWriter; rewrite Hn, Hw; reflexivity).
  destruct (Write_ok message EmptyString k1 Hfs eq_refl)
    as (k2 & HW & Hf2 & Hw2 & Hs2).
  set (c3 := mkClient k2 taken (closed c) (tail (arrivals c))).
  assert (HL : chan_len (set_conn k2 c) = (length taken, c3)).
  { unfold chan_len, hub_turn, c3, taken, set_conn.
    cbn [arrivals send conn closed].
    destruct (arrivals c) as [|a rest]; cbn [hd tail send conn closed];
      [rewrite app_nil_r|]; reflexivity. }
  destruct (drain_ok (length taken) c3 _ Hf2 Hw2)
    as (c4 & Hd & Hf4 & Hw4 & Hs4 & Hq4 & Ha4 & Hc4); [reflexivity|].
  cbn [c3 send conn arrivals closed] in Hw4, Hs4, Hq4, Ha4, Hc4.
  rewrite firstn_all in Hw4. rewrite drop_all in Hq4. cbn [app] in Hq4.
  destruct (next_fault_none (conn c4) Hf4) as (fs4 & Hn4 & Hfs4).
  assert (HC : Close (conn c4) =
               (None, mkConn (sent (conn c4) ++
                              [TextMessage (String.append message (join taken))])
                             None fs4)).
  { unfold Close. rewrite Hn4, Hw4. reflexivity. }
  eexists. unfold sendMessage. rewrite HN, HW, HL, Hd, HC.
  split; [reflexivity|]. cbn [set_conn conn sent writer send arrivals closed].
  rewrite Hs4, Hs2. cbn [k1 sent]. repeat split; assumption.
Qed.

(** One turn of the message branch keeps the stream. *)
Lemma writePump_message_stream (c c' : Client) (nx : pump_next) :
  no_fault (conn c) ->
  writer (conn c) = None ->
  writePump_message c = (nx, c') ->
  stream c' = stream c /\ no_fault (conn c') /\ writer (conn c') = None.
Proof.
  intros Hf Hw H. unfold writePump_message in H.
  set (a0 := hd [] (arrivals c)).
  set (c0 := mkClient (conn c) (send c ++ a0) (closed c) (tail (arrivals c))).
  assert (Hstream0 : stream c0 = stream c).
  { unfold stream, c0, a0. cbn [conn send arrivals].
    rewrite (concat_hd_tail (arrivals c)), app_assoc. reflexivity. }
  assert (Hrecv : chan_recv c =
                  match send c ++ a0 with
                  | m :: q =>
                      (Some (m, true),
                       mkClient (conn c) q (closed c) (tail (arrivals c)))
                  | [] => if closed c then (Some (EmptyString, false),
                                            hub_turn c)
                          else (None, hub_turn c)
                  end).
  { unfold chan_recv, hub_turn, a0.
    destruct (arrivals c) as [|a rest] eqn:Ha;
      cbn [hd tail send conn closed arrivals]; rewrite ?Ha.
    - rewrite app_nil_r. destruct (send c); reflexivity.
    - destruct (send c ++ a); reflexivity. }
  assert (Hturn : stream (hub_turn c) = stream c /\ conn (hub_turn c) = conn c).
  { unfold hub_turn. destruct (arrivals c) as [|a rest] eqn:Ha; [auto|].
    split; [|reflexivity]. unfold stream. cbn [conn send arrivals].
    rewrite Ha. cbn [concat]. now rewrite app_assoc. }
  rewrite Hrecv in H. destruct (send c ++ a0) as [|m q] eqn:Hq.
  - destruct Hturn as [Hst Hcn]. destruct (closed c).
    + destruct (WriteClose (conn (hub_turn c))) as [e k] eqn:HWC.
      injection H as _ <-. unfold WriteClose in HWC. rewrite Hcn in HWC.
      destruct (next_fault_none (conn c) Hf) as (fs & Hn & Hfs).
      rewrite Hn in HWC. injection HWC as _ <-.
      split; [|split; [exact Hfs|exact Hw]].
      rewrite <- Hst. unfold stream. cbn [set_conn conn sent send arrivals].
      rewrite Hcn, text_bytes_app. unfold text_bytes at 2. cbn.
      now rewrite append_empty_r.
    + injection H as _ <-. rewrite Hcn. auto.
  - set (c1 := mkClient (conn c) q (closed c) (tail (arrivals c))) in *.
    destruct (sendMessage_accounts c1 m Hf Hw)
      as (c2 & Hr & Hs & Hw2 & Hf2 & Hq2 & Ha2 & _).
    rewrite Hr in H. injection H as _ <-.
    split; [|split; [exact Hf2|exact Hw2]].
    rewrite <- Hstream0. unfold stream.
    rewrite Hs, Hq2, Ha2. cbn [c1 c0 conn send arrivals].
    rewrite text_bytes_app.
    change (text_bytes [TextMessage ?d]) with (String.append d EmptyString).
    rewrite append_empty_r.
    rewrite <- concat_app, take_drop.
    rewrite (concat_hd_tail (tail (arrivals c))).
    rewrite <- app_comm_cons, join_cons, !join_app, !append_assoc.
    reflexivity.
Qed.

(** One tick keeps the stream: a ping is no text. *)
Lemma writePump_tick_stream (c c' : Client) (nx : pump_next) :
  no_fault (conn c) ->
  writer (conn c) = None ->
  writePump_tick c = (nx, c') ->
  nx = Continue /\ sent (conn c') = sent (conn c) ++ [PingMessage] /\
  stream c' = stream c /\ no_fault (conn c') /\ writer (conn c') = None.
Proof.
  intros Hf Hw H. unfold writePump_tick, WritePing in H.
  destruct (next_fault_none (conn c) Hf) as (fs & Hn & Hfs).
  rewrite Hn in H. injection H as <- <-.
  cbn [set_conn conn sent writer]. repeat split; try assumption.
  unfold stream. cbn [set_conn conn sent send arrivals].
  rewrite text_bytes_app. unfold text_bytes at 2. cbn.
  now rewrite append_empty_r.
Qed.

(** X15: over any number of turns of [writePump], in any order of message
    and tick cases and with the hub enqueueing at any time, as long as the
    transport does not fail: the text bytes handed to the transport followed
    by the bytes still queued or still to come are always the same stream.
    No message is lost, duplicated or reordered by coalescing. *)
Theorem writePump_keeps_stream (cases : list select_case) :
  forall (c c' : Client) (nx : pump_next),
    no_fault (conn c) ->
    writer (conn c) = None ->
    writePump cases c = (nx, c') ->
    stream c' = stream c.
Proof.
  induction cases as [|[|] cases IH]; intros c c' nx Hf Hw H;
    cbn [writePump] in H.
  - injection H as _ <-. reflexivity.
  - destruct (writePump_message c) as [nx1 c1] eqn:H1.
    destruct (writePump_message_stream c c1 nx1 Hf Hw H1) as (Hs & Hf1 & Hw1).
    destruct nx1; [|injection H as _ <-; exact Hs..].
    rewrite <- Hs. exact (IH c1 c' nx Hf1 Hw1 H).
  - destruct (writePump_tick c) as [nx1 c1] eqn:H1.
    destruct (writePump_tick_stream c c1 nx1 Hf Hw H1)
      as (-> & _ & Hs & Hf1 & Hw1).
    rewrite <- Hs. exact (IH c1 c' nx Hf1 Hw1 H).
Qed.

Lemma writePump_keeps_stream_witness :
  exists nx c',
    writePump [CaseMessage; CaseTick; CaseMessage] busy_client = (nx, c') /\
    stream c' = "abcde"%string.
Proof.
  eexists _, _.
  assert (H : writePump [CaseMessage; CaseTick; CaseMessage] busy_client =
              (_, _)) by (vm_compute; reflexivity).
  split; [exact H|].
  assert (Hf : no_fault (conn busy_client)) by constructor.
  rewrite (writePump_keeps_stream _ busy_client _ _ Hf eq_refl H).
  reflexivity.
Defined.

Lemma writePump_message_closed (c : Client) :
  send c = [] ->
  arrivals c = [] ->
  closed c = true ->
  writePump_message c = (Stop, set_conn (WriteClose (conn c)).2 c).
Proof.
  intros Hq Ha Hc. unfold writePump_message, chan_recv, hub_turn.
  rewrite Ha, Hq, Hc. destruct (WriteClose (conn c)); reflexivity.
Qed.

(** X16: when the hub has closed the channel and nothing is queued, the
    message branch sends a close message and [writePump] returns; it returns
    even when sending the close message fails. *)
Theorem writePump_message_on_closed_channel (c : Client) :
  send c = [] ->
  arrivals c = [] ->
  closed c = true ->
  exists c',
    writePump_message c = (Stop, c') /\
    send c' = [] /\
    match next_fault (conn c) with
    | (None, _) => sent (conn c') = sent (conn c) ++ [CloseMessage]
    | (Some _, _) => sent (conn c') = sent (conn c)
    end.
Proof.
  intros Hq Ha Hc. unfold writePump_message, chan_recv, hub_turn.
  rewrite Ha, Hq, Hc. unfold WriteClose.
  destruct (next_fault (conn c)) as [[err|] fs];
    eexists; (split; [reflexivity|]); cbn [set_conn send conn sent]; auto.
Qed.

Lemma writePump_message_on_closed_channel_witness :
  exists c',
    writePump_message closed_client = (Stop, c') /\
    sent (conn c') = [TextMessage "x"; CloseMessage].
Proof.
  destruct (writePump_message_on_closed_channel closed_client
              eq_refl eq_refl eq_refl) as (c' & H & _ & Hs).
  exists c'. split; [exact H|exact Hs].
Defined.

(** X17: a closed channel that still holds messages is drained first: the
    message branch sends them as one text message and the pump goes on; the
    close message comes on a later turn. *)
Theorem writePump_closed_channel_drains_first (c : Client) (m : string)
    (q : list string) :
  no_fault (conn c) ->
  writer (conn c) = None ->
  send c = m :: q ->
  arrivals c = [] ->
  closed c = true ->
  exists c1 c2,
    writePump [CaseMessage; CaseMessage] c = (Stop, c2) /\
    writePump_message c = (Continue, c1) /\
    sent (conn c2) =
      sent (conn c) ++
      [TextMessage (String.append m (join q)); CloseMessage].
Proof.
  intros Hf Hw Hq Ha Hc.
  set (c0 := mkClient (conn c) q (closed c) []).
  assert (Hrecv : chan_recv c = (Some (m, true), c0))
    by (unfold chan_recv, hub_turn; rewrite Ha, Hq, Ha; reflexivity).
  destruct (sendMessage_accounts c0 m Hf Hw)
    as (c1 & Hr & Hs & Hw1 & Hf1 & Hq1 & Ha1 & Hc1).
  cbn [c0 send arrivals conn closed hd tail] in Hs, Hq1, Ha1, Hc1.
  rewrite app_nil_r in Hs. rewrite take_nil in Hq1. rewrite drop_nil in Ha1.
  assert (H1 : writePump_message c = (Continue, c1))
    by (unfold writePump_message; rewrite Hrecv, Hr; reflexivity).
  pose proof (writePump_message_closed c1 Hq1 Ha1 (eq_trans Hc1 Hc)) as H2.
  destruct (next_fault_none (conn c1) Hf1) as (fs & Hn & _).
  exists c1, (set_conn (WriteClose (conn c1)).2 c1).
  cbn [writePump]. rewrite H1, H2.
  split; [reflexivity|]. split; [reflexivity|].
  unfold WriteClose. rewrite Hn. cbn [snd set_conn conn sent].
  rewrite Hs, <- app_assoc. reflexivity.
Qed.

Lemma writePump_closed_channel_drains_first_witness :
  exists c2,
    writePump [CaseMessage; CaseMessage]
      (mkClient (mkConn [] None []) ["a"; "b"]%string true []) = (Stop, c2) /\
    sent (conn c2) = [TextMessage "ab"; CloseMessage].
Proof.
  destruct (writePump_closed_channel_drains_first
              (mkClient (mkConn [] None []) ["a"; "b"]%string true [])
              "a" ["b"%string])
    as (c1 & c2 & H & _ & Hs); try reflexivity; [constructor|].
  exists c2. split; [exact H|exact Hs].
Defined.

(** X18: a tick with a working transport sends one ping and the pump goes
    on; a tick whose ping fails sends nothing and [writePump] returns. *)
Theorem writePump_tick_pings (c : Client) :
  match next_fault (conn c) with
  | (None, _) =>
      exists c', writePump_tick c = (Continue, c') /\
        sent (conn c') = sent (conn c) ++ [PingMessage] /\
        send c' = send c
  | (Some _, _) =>
      exists c', writePump_tick c = (Stop, c') /\
        sent (conn c') = sent (conn c) /\
        forall rest, writePump (CaseTick :: rest) c = (Stop, c')
  end.
Proof.
  destruct (next_fault (conn c)) as [[err|] fs] eqn:Hn.
  - eexists. unfold writePump_tick, WritePing. rewrite Hn.
    split; [reflexivity|]. split; [reflexivity|].
    intros rest. cbn [writePump]. unfold writePump_tick, WritePing.
    rewrite Hn. reflexivity.
  - eexists. unfold writePump_tick, WritePing. rewrite Hn.
    repeat split.
Qed.
